(** * vite-plugin-preload-images: the resolver and the generated scheduler

    A shallow embedding of [src/index.ts] (the current revision, the first
    of the two revisions kept in the source tree) and the properties of its
    specification.

    Modelling conventions.
    - A JavaScript string is a [string]: a sequence of code units below 256.
    - A JavaScript number is a [Number]: an integer, a finite number that
      is not an integer (kept as the integer below it and its text, which is
      all that comparisons with integers, [ToLength] and printing need),
      [NaN] or an infinity.
    - An object is its list of own properties, the first binding of a key
      being the significant one; an array is a list.
    - A thrown exception is the [Threw] outcome of a computation.
    - The module-level [globCache] and the file system that [fg.sync] reads
      make up the [World] that is threaded through the hooks. *)

From Stdlib Require Import ZArith Ascii.
From stdpp Require Import gmap strings list fin_maps pretty.

Local Open Scope Z_scope.

(** ** JavaScript values, as far as [validateOptions] inspects them *)

Module Js.

#[local] Set Warnings "-register-all".

(** A number: an integer; a finite number that is not an integer, with
    the greatest integer below it and its text; [NaN]; [Infinity] or
    [-Infinity]. *)
Inductive Number : Type :=
  | Int (n : Z)
  | Frac (below : Z) (text : string)
  | NaN
  | Infinity (negative : bool).
Coercion Int : Z >-> Number.

(** [x < bound] for an integer [bound]: false whenever [x] is [NaN]. *)
Definition number_lt (x : Number) (bound : Z) : bool :=
  match x with
  | Int n => n <? bound
  | Frac below _ => below <? bound
  | NaN => false
  | Infinity negative => negative
  end.

(** [ToLength(x)], an integer from 0 to 2^53 - 1. *)
Definition ToLength (x : Number) : Z :=
  match x with
  | Int n => Z.max 0 (Z.min n (2 ^ 53 - 1))
  | Frac below _ => Z.max 0 (Z.min below (2 ^ 53 - 1))
  | NaN => 0
  | Infinity negative => if negative then 0 else 2 ^ 53 - 1
  end.

(** [String(x)] *)
Definition number_text (x : Number) : string :=
  match x with
  | Int n => pretty n
  | Frac _ text => text
  | NaN => "NaN"
  | Infinity negative => if negative then "-Infinity" else "Infinity"
  end.

Inductive Val : Type :=
  | Undefined
  | Null
  | Bool (b : bool)
  | Num (x : Number)
  | Str (s : string)
  | Arr (items : list Val)
  | Obj (props : list (string * Val)).

Inductive Exn : Type :=
  | Error (message : string)
  | TypeError (message : string).

Inductive Outcome (A : Type) : Type :=
  | Returned (a : A)
  | Threw (e : Exn).
Arguments Returned {A} a.
Arguments Threw {A} e.

Definition bind {A B} (m : Outcome A) (k : A → Outcome B) : Outcome B :=
  match m with
  | Returned a => k a
  | Threw e => Threw e
  end.

(** [typeof v] *)
Definition typeof (v : Val) : string :=
  match v with
  | Undefined => "undefined"
  | Null => "object"
  | Bool _ => "boolean"
  | Num _ => "number"
  | Str _ => "string"
  | Arr _ => "object"
  | Obj _ => "object"
  end.

(** [ToBoolean]: what [!v] and [if (v)] look at. *)
Definition truthy (v : Val) : bool :=
  match v with
  | Undefined | Null => false
  | Bool b => b
  | Num (Int n) => negb (n =? 0)
  | Num NaN => false
  | Num (Frac _ _) | Num (Infinity _) => true
  | Str s => negb (String.eqb s "")
  | Arr _ | Obj _ => true
  end.

(** [Array.isArray(v)] *)
Definition isArray (v : Val) : bool :=
  match v with Arr _ => true | _ => false end.

(** Own-property lookup in a property list. *)
Fixpoint lookup_prop (k : string) (props : list (string * Val)) : option Val :=
  match props with
  | [] => None
  | (k', v) :: rest => if String.eqb k k' then Some v else lookup_prop k rest
  end.

(** [o.k] for an object given by its property list. *)
Definition get (k : string) (props : list (string * Val)) : Val :=
  default Undefined (lookup_prop k props).

(** [k in o] for an object given by its property list. *)
Definition has (k : string) (props : list (string * Val)) : bool :=
  match lookup_prop k props with Some _ => true | None => false end.

(** How a primitive is printed in the message of a TypeError. *)
Definition display (v : Val) : string :=
  match v with
  | Undefined => "undefined"
  | Null => "null"
  | Bool true => "true"
  | Bool false => "false"
  | Num x => number_text x
  | Str s => s
  | Arr _ | Obj _ => "[object]"
  end.

(** [k in v] for an arbitrary value and a key that is neither an array index
    nor the name of an inherited property: a primitive on the right of [in]
    is a TypeError. *)
Definition in_op (k : string) (v : Val) : Outcome bool :=
  match v with
  | Obj props => Returned (has k props)
  | Arr _ => Returned false
  | _ =>
      Threw (TypeError ("Cannot use 'in' operator to search for '" +:+ k
                        +:+ "' in " +:+ display v))
  end.

(** White space and line terminators that [String.prototype.trim] strips,
    among the code units below 256: TAB, LF, VT, FF, CR, SP and NBSP. *)
Definition is_white_space (c : ascii) : bool :=
  match c with
  | "009" | "010" | "011" | "012" | "013" | " " | "160" => true
  | _ => false
  end%char.

Fixpoint trimStart (s : string) : string :=
  match s with
  | EmptyString => EmptyString
  | String c rest => if is_white_space c then trimStart rest else s
  end.

Definition trimEnd (s : string) : string :=
  String.rev (trimStart (String.rev s)).

(** [s.trim()] *)
Definition trim (s : string) : string := trimEnd (trimStart s).

(** [pieces.join(sep)] *)
Fixpoint join (sep : string) (pieces : list string) : string :=
  match pieces with
  | [] => ""
  | [p] => p
  | p :: rest => p +:+ sep +:+ join sep rest
  end.

(** [t] is an initial segment of [s]. *)
Fixpoint starts_with (s t : string) {struct t} : bool :=
  match t with
  | EmptyString => true
  | String c t' =>
      match s with
      | EmptyString => false
      | String d s' => if Ascii.eqb c d then starts_with s' t' else false
      end
  end.

(** [s.includes(t)]: [t] occurs in [s] as a contiguous run. *)
Fixpoint includes (s t : string) : bool :=
  starts_with s t ||
  match s with
  | EmptyString => false
  | String _ rest => includes rest t
  end.

(** [arr.forEach((item, index) => ...)] for a callback that updates a local
    accumulator and may throw; [i] is the index of the head of [l]. *)
Fixpoint forEach_from {A Acc : Type} (f : Acc → A → nat → Outcome Acc)
    (i : nat) (l : list A) (s : Acc) : Outcome Acc :=
  match l with
  | [] => Returned s
  | x :: rest => bind (f s x i) (forEach_from f (S i) rest)
  end.

Definition forEach {A Acc : Type} (f : Acc → A → nat → Outcome Acc)
    (l : list A) (s : Acc) : Outcome Acc :=
  forEach_from f 0 l s.

End Js.

Import Js.

Declare Scope outcome_scope.
Notation "'do' x <- m ; k" := (Js.bind m (λ x, k))
  (at level 10, x name, m at level 100, k at level 200, only parsing)
  : outcome_scope.
Local Open Scope outcome_scope.

(** ** Configuration validation ([validateOptions], lines 27-57) *)

(** The type guard [IsDirOptions]. *)
Definition IsDirOptions (item : Val) : Outcome bool :=
  if String.eqb (typeof item) "object" then
    do d <- in_op "dir" item;
    if d then in_op "publicDir" item else Returned false
  else Returned false.

Definition msg_dirs_required : string := "Param dirs is required!".
Definition msg_dirs_type : string := "Param dirs must be string or array!".
Definition msg_item_empty (index : nat) : string :=
  "Param dirs[" +:+ pretty index +:+ "] cannot be empty string!".
Definition msg_item_shape (index : nat) : string :=
  "Param dirs[" +:+ pretty index +:+ "] must be have dir and publicDir property!".
Definition msg_batchSize : string := "BatchSize must be number and greater than 0!".
Definition msg_timeout : string := "Timeout must be number and greater than 1000!".

(** The callback of [options.dirs.forEach]. *)
Definition check_item (errors : list string) (item : Val) (index : nat)
    : Outcome (list string) :=
  match item with
  | Str s =>
      Returned (if negb (truthy (Str (trim s)))
                then errors ++ [msg_item_empty index] else errors)
  | _ =>
      do ok <- IsDirOptions item;
      Returned (if negb ok then errors ++ [msg_item_shape index] else errors)
  end.

(** The [if / else if / else if] chain on [options.dirs]. *)
Definition check_dirs (dirs : Val) (errors : list string) : Outcome (list string) :=
  if negb (truthy dirs) then Returned (errors ++ [msg_dirs_required])
  else if negb (String.eqb (typeof dirs) "string") && negb (isArray dirs)
  then Returned (errors ++ [msg_dirs_type])
  else match dirs with
       | Arr items => forEach check_item items errors
       | _ => Returned errors
       end.

(** [typeof v !== 'number' || v < bound] *)
Definition not_number_or_below (v : Val) (bound : Z) : bool :=
  negb (String.eqb (typeof v) "number") ||
  match v with Num x => number_lt x bound | _ => false end.

Definition check_batchSize (options : list (string * Val)) (errors : list string)
    : list string :=
  if has "batchSize" options && not_number_or_below (get "batchSize" options) 1
  then errors ++ [msg_batchSize] else errors.

Definition check_timeout (options : list (string * Val)) (errors : list string)
    : list string :=
  if has "timeout" options && not_number_or_below (get "timeout" options) 1000
  then errors ++ [msg_timeout] else errors.

Definition config_error (errors : list string) : Exn :=
  Error ("[vite-plugin-preload-images]: " +:+ join " " errors).

Definition validateOptions (options : list (string * Val)) : Outcome unit :=
  do errors <- check_dirs (get "dirs" options) [];
  let errors := check_batchSize options errors in
  let errors := check_timeout options errors in
  match errors with
  | [] => Returned tt
  | _ => Threw (config_error errors)
  end.

(** ** The declared options, typed as in [interface Options] *)

Module DirOptions.
Record t : Type := Build { dir : string; publicDir : bool }.
End DirOptions.

Inductive DirItem : Type :=
  | ItemStr (pattern : string)
  | ItemObj (d : DirOptions.t).

Inductive Dirs : Type :=
  | DirsStr (pattern : string)
  | DirsArr (items : list DirItem).

Module ResolvedConfig.
(** Of Vite's resolved configuration the plugin reads [publicDir] only:
    the absolute path of the public root, or the empty string when the
    project has none. *)
Record t : Type := Build { publicDir : string }.
End ResolvedConfig.

(** ** Pattern expansion and its cache ([getCachedGlobSync], lines 59-67) *)

Module GlobOptions.
(** The two option objects the plugin passes to [fg.sync]: the empty
    object ([cwd = None]) and [{ cwd: ... }]. *)
Record t : Type := Build { cwd : option string }.
#[global] Instance eq_dec : EqDecision t.
Proof. solve_decision. Defined.
End GlobOptions.

Abbreviation no_options := (GlobOptions.Build None).
Abbreviation cwd_options c := (GlobOptions.Build (Some c)).

Definition dquote : ascii := "034"%char.
Definition backslash : ascii := "092"%char.

Definition hex_digit (n : N) : ascii :=
  ascii_of_N (if (n <? 10)%N then 48 + n else 87 + n)%N.

(** [QuoteJSONString] on one code unit. *)
Definition json_escape (c : ascii) : string :=
  match c with
  | "034" => String backslash (String dquote "")
  | "092" => String backslash (String backslash "")
  | "008" => String backslash "b"
  | "009" => String backslash "t"
  | "010" => String backslash "n"
  | "012" => String backslash "f"
  | "013" => String backslash "r"
  | _ =>
      let n := N_of_ascii c in
      if (n <? 32)%N
      then String backslash
             (String "u" (String "0" (String "0"
               (String (hex_digit (n / 16)) (String (hex_digit (n mod 16)) "")))))
      else String c ""
  end%char.

Fixpoint json_escape_all (s : string) : string :=
  match s with
  | EmptyString => ""
  | String c rest => json_escape c +:+ json_escape_all rest
  end.

(** [JSON.stringify(s)] for a string. *)
Definition JSON_stringify_string (s : string) : string :=
  String dquote (json_escape_all s +:+ String dquote "").

(** [JSON.stringify(options)] for the option objects of [fg.sync]. *)
Definition JSON_stringify (options : GlobOptions.t) : string :=
  match GlobOptions.cwd options with
  | None => "{}"
  | Some c =>
      "{" +:+ JSON_stringify_string "cwd" +:+ ":" +:+ JSON_stringify_string c +:+ "}"
  end.

(** The world outside a plugin instance: the file system as [fg.sync] sees
    it (a pattern and options give the ordered list of matching paths), the
    module-level [globCache], and the log of the scans [fg.sync] performed. *)
Record World : Type := MkWorld {
  fg_sync : string → GlobOptions.t → list string;
  globCache : gmap string (list string);
  scans : list (string * GlobOptions.t)
}.

Definition cache_key (pattern : string) (options : GlobOptions.t) : string :=
  pattern +:+ "-" +:+ JSON_stringify options.

(** [globCache.set(key, fg.sync(pattern, options))] *)
Definition scan_and_store (key pattern : string) (options : GlobOptions.t)
    (w : World) : World :=
  {| fg_sync := fg_sync w;
     globCache := <[key := fg_sync w pattern options]> (globCache w);
     scans := scans w ++ [(pattern, options)] |}.

Definition getCachedGlobSync (pattern : string) (options : GlobOptions.t)
    (w : World) : option (list string) * World :=
  let key := cache_key pattern options in
  let w' := if bool_decide (is_Some (globCache w !! key)) then w
            else scan_and_store key pattern options w in
  (globCache w' !! key, w').

(** ** Matching emitted artifacts (lines 69-90) *)

Module Output.
(** One value of Rollup's output bundle: [fileName] is the final served
    name, [name] the symbolic name and [originalFileName] the source path;
    [None] stands for a property that is absent, undefined or null. *)
Record t : Type := Build {
  fileName : string;
  name : option string;
  originalFileName : option string
}.
End Output.

(** Truthiness of a property that is a string when present. *)
Definition truthy_prop (v : option string) : bool :=
  match v with
  | Some s => negb (String.eqb s "")
  | None => false
  end.

(** [ToString] of the argument of [String.prototype.includes]. *)
Definition search_string (v : option string) : string :=
  default "undefined" v.

Definition matchBundleWithFiles (bundle : Output.t) (files : option (list string))
    : bool :=
  match files with
  | None => false
  | Some files =>
      if truthy_prop (Output.originalFileName bundle)
      then match Output.originalFileName bundle with
           | Some original => bool_decide (original ∈ files)
           | None => false
           end
      else existsb (λ file, includes file (search_string (Output.name bundle))) files
  end.

Definition collectMatchedFiles (pattern : string) (bundles : list Output.t)
    (options : GlobOptions.t) (w : World) : list string * World :=
  let '(files, w') := getCachedGlobSync pattern options w in
  (foldl (λ matchedFiles bundle,
            if matchBundleWithFiles bundle files
            then matchedFiles ++ [Output.fileName bundle] else matchedFiles)
         [] bundles, w').

(** ** The plugin instance ([VitePluginPreloadImages], lines 159-300) *)

(** What the script template is instantiated with (lines 241-289). *)
Module Script.
Record t : Type := Build {
  images : list string;
  rel : string;
  fetchPriority : string;
  extra : list (string * string);
  timeout : Number;
  batchSize : Number
}.
End Script.

Module HtmlTag.
Record t : Type := Build {
  tag : string;
  injectTo : string;
  children : Script.t
}.
End HtmlTag.

(** The closure of one plugin instance: the destructured options, which no
    hook assigns, and the two variables [assets] and [config]. *)
Record Plugin : Type := MkPlugin {
  dirs : Dirs;
  attrs : list (string * string);
  batchSize : Number;
  publicDir : bool;
  timeout : Number;
  assets : list string;
  config : option ResolvedConfig.t
}.

Definition set_assets (p : Plugin) (a : list string) : Plugin :=
  {| dirs := dirs p; attrs := attrs p; batchSize := batchSize p;
     publicDir := publicDir p; timeout := timeout p;
     assets := a; config := config p |}.

Definition set_config (p : Plugin) (c : ResolvedConfig.t) : Plugin :=
  {| dirs := dirs p; attrs := attrs p; batchSize := batchSize p;
     publicDir := publicDir p; timeout := timeout p;
     assets := assets p; config := Some c |}.

(** Computations of the hooks: they read and update the world and may throw. *)
Definition M (A : Type) : Type := World → Outcome A * World.

Definition ret {A} (a : A) : M A := λ w, (Returned a, w).
Definition throw {A} (e : Exn) : M A := λ w, (Threw e, w).
Definition mbind' {A B} (m : M A) (k : A → M B) : M B :=
  λ w, match m w with
       | (Returned a, w') => k a w'
       | (Threw e, w') => (Threw e, w')
       end.
Definition lift {A} (f : World → A * World) : M A :=
  λ w, let '(a, w') := f w in (Returned a, w').

Declare Scope world_scope.
Notation "'do' x <- m ; k" := (mbind' m (λ x, k))
  (at level 10, x name, m at level 100, k at level 200, only parsing)
  : world_scope.
Delimit Scope world_scope with world.

(** [arr.forEach(item => ...)] for a callback that updates [images]. *)
Fixpoint forEachM {A Acc : Type} (f : Acc → A → M Acc) (l : list A) (s : Acc)
    : M Acc :=
  match l with
  | [] => ret s
  | x :: rest => mbind' (f s x) (forEachM f rest)
  end.

(** [config.publicDir]; [config] is undefined until [configResolved] ran. *)
Definition config_publicDir (p : Plugin) : M string :=
  match config p with
  | Some c => ret (ResolvedConfig.publicDir c)
  | None =>
      throw (TypeError "Cannot read properties of undefined (reading 'publicDir')")
  end.

Definition str_truthy (s : string) : bool := negb (String.eqb s "").

(** [flag ? { cwd: config.publicDir } : {}] *)
Definition cwd_if (p : Plugin) (flag : bool) : M GlobOptions.t :=
  if flag then mbind' (config_publicDir p) (λ c, ret (cwd_options c))
  else ret no_options.

(** [flag && !config.publicDir] and [flag && config.publicDir] *)
Definition and_not_public_root (p : Plugin) (flag : bool) : M bool :=
  if flag then mbind' (config_publicDir p) (λ c, ret (negb (str_truthy c)))
  else ret false.
Definition and_public_root (p : Plugin) (flag : bool) : M bool :=
  if flag then mbind' (config_publicDir p) (λ c, ret (str_truthy c))
  else ret false.

(** [if (files) images.push(...files)] *)
Definition push_files (images : list string) (files : option (list string))
    : list string :=
  match files with
  | Some files => images ++ files
  | None => images
  end.

(** [const files = getCachedGlobSync(pattern, options);
     if (files) images.push(...files)] *)
Definition glob_into (images : list string) (pattern : string)
    (options : GlobOptions.t) : M (list string) :=
  mbind' (lift (getCachedGlobSync pattern options))
         (λ files, ret (push_files images files)).

Definition configResolved (resolvedConfig : ResolvedConfig.t) (p : Plugin) : Plugin :=
  set_config p resolvedConfig.

(** [Object.values(bundle)] *)
Definition Object_values (bundle : list (string * Output.t)) : list Output.t :=
  map snd bundle.

(** The callback of [dirs.forEach] in [generateBundle]. *)
Definition generateBundle_item (p : Plugin) (bundles : list Output.t)
    (st : list string * World) (item : DirItem) : list string * World :=
  let '(assets, w) := st in
  match item with
  | ItemStr pattern =>
      if negb (publicDir p)
      then let '(matched, w') := collectMatchedFiles pattern bundles no_options w in
           (assets ++ matched, w')
      else (assets, w)
  | ItemObj d =>
      if negb (DirOptions.publicDir d)
      then let '(matched, w') :=
             collectMatchedFiles (DirOptions.dir d) bundles no_options w in
           (assets ++ matched, w')
      else (assets, w)
  end.

Definition generateBundle (p : Plugin) (bundle : list (string * Output.t))
    (w : World) : Plugin * World :=
  let bundles := Object_values bundle in
  match dirs p with
  | DirsStr pattern =>
      if negb (publicDir p)
      then let '(matched, w') := collectMatchedFiles pattern bundles no_options w in
           (set_assets p (assets p ++ matched), w')
      else (p, w)
  | DirsArr items =>
      let '(assets', w') := foldl (generateBundle_item p bundles) (assets p, w) items in
      (set_assets p assets', w')
  end.

Local Open Scope world_scope.

(** The callback of [dirs.forEach] when [ctx.server] is set (lines 206-216). *)
Definition dev_item (p : Plugin) (images : list string) (item : DirItem)
    : M (list string) :=
  match item with
  | ItemStr pattern =>
      do skip <- and_not_public_root p (publicDir p);
      if skip then ret images
      else do options <- cwd_if p (publicDir p);
           glob_into images pattern options
  | ItemObj d =>
      do skip <- and_not_public_root p (DirOptions.publicDir d);
      if skip then ret images
      else do options <- cwd_if p (DirOptions.publicDir d);
           glob_into images (DirOptions.dir d) options
  end.

(** [if (flag && config.publicDir) { ...getCachedGlobSync(pattern,
    { cwd: config.publicDir })... }] (lines 220-223, 226-233). *)
Definition prod_public (p : Plugin) (images : list string) (pattern : string)
    (flag : bool) : M (list string) :=
  do ok <- and_public_root p flag;
  if ok then do c <- config_publicDir p;
             glob_into images pattern (cwd_options c)
  else ret images.

(** The callback of [dirs.forEach] in a build (lines 225-234). *)
Definition prod_item (p : Plugin) (images : list string) (item : DirItem)
    : M (list string) :=
  match item with
  | ItemStr pattern => prod_public p images pattern (publicDir p)
  | ItemObj d => prod_public p images (DirOptions.dir d) (DirOptions.publicDir d)
  end.

(** [new Set(images)], a set in insertion order, built by successive [add]. *)
Definition Set_add (s : list string) (x : string) : list string :=
  if bool_decide (x ∈ s) then s else s ++ [x].
Definition new_Set (l : list string) : list string := foldl Set_add [] l.
(** [Array.from(set)] lists the elements in insertion order. *)
Definition Array_from (s : list string) : list string := s.

(** Lines 198-237: the URLs collected before deduplication. *)
Definition collect_images (p : Plugin) (server : bool) : M (list string) :=
  if server then
    match dirs p with
    | DirsStr pattern =>
        do options <- cwd_if p (publicDir p);
        glob_into [] pattern options
    | DirsArr items => forEachM (dev_item p) items []
    end
  else
    do images <-
      match dirs p with
      | DirsStr pattern => prod_public p [] pattern (publicDir p)
      | DirsArr items => forEachM (prod_item p) items []
      end;
    ret (images ++ assets p).

(** Lines 198-238: the resolved list. *)
Definition resolve_images (p : Plugin) (server : bool) : M (list string) :=
  do images <- collect_images p server;
  ret (Array_from (new_Set images)).

(** [attrs[k] || fallback] *)
Definition attr_or (k fallback : string) (attrs : list (string * string)) : string :=
  match list_find (λ kv, kv.1 = k) attrs with
  | Some (_, (_, v)) => if str_truthy v then v else fallback
  | None => fallback
  end.

Definition reserved_attrs : list string := ["as"; "href"; "rel"; "fetchPriority"].

Definition render_script (p : Plugin) (images : list string) : Script.t :=
  {| Script.images := images;
     Script.rel := attr_or "rel" "prefetch" (attrs p);
     Script.fetchPriority := attr_or "fetchPriority" "low" (attrs p);
     Script.extra := filter (λ kv, kv.1 ∉ reserved_attrs) (attrs p);
     Script.timeout := timeout p;
     Script.batchSize := batchSize p |}.

Definition transformIndexHtml (p : Plugin) (server : bool) : M (list HtmlTag.t) :=
  do images <- resolve_images p server;
  ret [ {| HtmlTag.tag := "script"; HtmlTag.injectTo := "head";
           HtmlTag.children := render_script p images |} ].

(** The resolved list a transform embeds in the page. *)
Definition resolved_of (tags : list HtmlTag.t) : list string :=
  match tags with
  | [t] => Script.images (HtmlTag.children t)
  | _ => []
  end.

(** [const { dirs, attrs = {}, batchSize = 2, publicDir = false,
     timeout = 5000 } = options], for options of the declared type
    [Options]; [None] for a value outside that type. *)
Definition as_item (v : Val) : option DirItem :=
  match v with
  | Str s => Some (ItemStr s)
  | Obj props =>
      match lookup_prop "dir" props, lookup_prop "publicDir" props with
      | Some (Str d), Some (Bool b) => Some (ItemObj (DirOptions.Build d b))
      | _, _ => None
      end
  | _ => None
  end.

Definition as_dirs (v : Val) : option Dirs :=
  match v with
  | Str s => Some (DirsStr s)
  | Arr items => DirsArr <$> mapM as_item items
  | _ => None
  end.

Definition as_attr (kv : string * Val) : option (string * string) :=
  match kv.2 with Str s => Some (kv.1, s) | _ => None end.

Definition as_attrs (v : Val) : option (list (string * string)) :=
  match v with
  | Undefined => Some []
  | Obj props => mapM as_attr props
  | _ => None
  end.

Definition as_number (fallback : Number) (v : Val) : option Number :=
  match v with Undefined => Some fallback | Num x => Some x | _ => None end.

Definition as_boolean (fallback : bool) (v : Val) : option bool :=
  match v with Undefined => Some fallback | Bool b => Some b | _ => None end.

Definition destructure (options : list (string * Val)) : option Plugin :=
  d ← as_dirs (get "dirs" options);
  a ← as_attrs (get "attrs" options);
  b ← as_number 2 (get "batchSize" options);
  pd ← as_boolean false (get "publicDir" options);
  t ← as_number 5000 (get "timeout" options);
  Some {| dirs := d; attrs := a; batchSize := b; publicDir := pd; timeout := t;
          assets := []; config := None |}.

(** Plugin construction: validation first, then the closure.  The result is
    [Returned None] when validation lets through options that are not of
    the declared type; the hooks of such an instance are not modelled. *)
Definition VitePluginPreloadImages (options : list (string * Val))
    : M (option Plugin) :=
  λ w, match validateOptions options with
       | Threw e => (Threw e, w)
       | Returned _ => (Returned (destructure options), w)
       end.

(** ** Auxiliary definitions for the statements *)

(** The message an array item earns, for an item other than [null]. *)
Definition item_message (index : nat) (item : Val) : option string :=
  match item with
  | Str s => if String.eqb (trim s) "" then Some (msg_item_empty index) else None
  | Obj props =>
      if has "dir" props && has "publicDir" props then None
      else Some (msg_item_shape index)
  | _ => Some (msg_item_shape index)
  end.

Fixpoint item_messages (index : nat) (items : list Val) : list string :=
  match items with
  | [] => []
  | item :: rest =>
      option_list (item_message index item) ++ item_messages (S index) rest
  end.

(** The messages [options.dirs] earns when no array item is [null]. *)
Definition dirs_messages (dirs : Val) : list string :=
  if negb (truthy dirs) then [msg_dirs_required]
  else match dirs with
       | Str _ => []
       | Arr items => item_messages 0 items
       | _ => [msg_dirs_type]
       end.

Definition all_messages (options : list (string * Val)) : list string :=
  check_timeout options (check_batchSize options (dirs_messages (get "dirs" options))).

(** [w'] is [w] after some lookups: the cache only grew and the file
    system is the same. *)
Definition extends (w w' : World) : Prop :=
  globCache w ⊆ globCache w' ∧ fg_sync w' = fg_sync w.

(** An array item whose effective [fromPublicRoot] is false: a structured
    record with [publicDir: false], or a bare string when the global
    [publicDir] option is false. *)
Definition item_is_source (p : Plugin) (item : DirItem) (pattern : string) : Prop :=
  match item with
  | ItemStr s => s = pattern ∧ publicDir p = false
  | ItemObj d => DirOptions.dir d = pattern ∧ DirOptions.publicDir d = false
  end.

(** [pattern] is declared by a target whose effective [fromPublicRoot] is
    false. *)
Definition source_target (p : Plugin) (pattern : string) : Prop :=
  match dirs p with
  | DirsStr s => s = pattern ∧ publicDir p = false
  | DirsArr items => ∃ item, item ∈ items ∧ item_is_source p item pattern
  end.

(** An artifact exposes its source path: [originalFileName] is truthy. *)
Definition exposes_source (b : Output.t) : Prop :=
  truthy_prop (Output.originalFileName b) = true.

(** The patterns [generateBundle] matches against the bundle, in order:
    those of the targets whose effective [fromPublicRoot] is false. *)
Definition item_source_pattern (p : Plugin) (item : DirItem) : option string :=
  match item with
  | ItemStr s => if negb (publicDir p) then Some s else None
  | ItemObj d =>
      if negb (DirOptions.publicDir d) then Some (DirOptions.dir d) else None
  end.

Definition source_patterns (p : Plugin) : list string :=
  match dirs p with
  | DirsStr s => if negb (publicDir p) then [s] else []
  | DirsArr items => omap (item_source_pattern p) items
  end.

(** Successive [collectMatchedFiles] calls pushing onto [assets]. *)
Fixpoint collects (patterns : list string) (bundles : list Output.t)
    (assets : list string) (w : World) : list string * World :=
  match patterns with
  | [] => (assets, w)
  | pattern :: rest =>
      let '(matched, w') := collectMatchedFiles pattern bundles no_options w in
      collects rest bundles (assets ++ matched) w'
  end.

(** The pattern and the flag an array item stands for. *)
Definition item_target (p : Plugin) (item : DirItem) : string * bool :=
  match item with
  | ItemStr s => (s, publicDir p)
  | ItemObj d => (DirOptions.dir d, DirOptions.publicDir d)
  end.

(** The expansion an array item requests from a dev-server transform, and
    from a build transform, when the public root is [root]. *)
Definition dev_request (p : Plugin) (root : string) (item : DirItem)
    : option (string * GlobOptions.t) :=
  let '(pattern, flag) := item_target p item in
  if flag && negb (str_truthy root) then None
  else Some (pattern, if flag then cwd_options root else no_options).

Definition prod_request (p : Plugin) (root : string) (item : DirItem)
    : option (string * GlobOptions.t) :=
  let '(pattern, flag) := item_target p item in
  if flag && str_truthy root then Some (pattern, cwd_options root) else None.

(** All expansions one transform requests, in order. *)
Definition requests (p : Plugin) (root : string) (server : bool)
    : list (string * GlobOptions.t) :=
  match dirs p with
  | DirsStr s =>
      if server then [(s, if publicDir p then cwd_options root else no_options)]
      else if publicDir p && str_truthy root then [(s, cwd_options root)] else []
  | DirsArr items =>
      omap (if server then dev_request p root else prod_request p root) items
  end.

(** Successive cached expansions pushing onto [images]. *)
Fixpoint lookups (reqs : list (string * GlobOptions.t)) (images : list string)
    (w : World) : list string * World :=
  match reqs with
  | [] => (images, w)
  | (pattern, options) :: rest =>
      let '(files, w') := getCachedGlobSync pattern options w in
      lookups rest (push_files images files) w'
  end.

(** The option objects one instance can pass to [fg.sync] when the public
    root is [root]. *)
Definition in_family (root : string) (options : GlobOptions.t) : Prop :=
  options = no_options ∨ options = cwd_options root.

(** The cache agrees with the file system on every expansion an instance
    with public root [root] can request.  The empty cache does. *)
Definition coherent (root : string) (w : World) : Prop :=
  ∀ pattern options files,
    in_family root options →
    globCache w !! cache_key pattern options = Some files →
    files = fg_sync w pattern options.

(** The expansions of a list of requests, one after the other. *)
Definition expansions (w : World) (reqs : list (string * GlobOptions.t))
    : list string :=
  concat (map (λ req, fg_sync w req.1 req.2) reqs).

(** The life of one plugin instance: the hooks Vite calls on it. *)
Inductive Hook : Type :=
  | ConfigResolved (resolvedConfig : ResolvedConfig.t)
  | GenerateBundle (bundle : list (string * Output.t))
  | TransformIndexHtml (server : bool).

Definition run_hook (st : Plugin * World) (h : Hook) : Plugin * World :=
  let '(p, w) := st in
  match h with
  | ConfigResolved rc => (configResolved rc p, w)
  | GenerateBundle bundle => generateBundle p bundle w
  | TransformIndexHtml server => (p, (transformIndexHtml p server w).2)
  end.

Definition run_hooks (hooks : list Hook) (st : Plugin * World) : Plugin * World :=
  foldl run_hook st hooks.

(** The last path segment of a slash-separated path. *)
Fixpoint basename_from (acc : string) (path : string) : string :=
  match path with
  | EmptyString => acc
  | String c rest =>
      if Ascii.eqb c "/" then basename_from "" rest
      else basename_from (acc +:+ String c "") rest
  end.
Definition basename (path : string) : string := basename_from "" path.

(** The fallback test as the specification words it: an expanded file name
    is a substring of the artifact's symbolic name.  [names_in_artifact]
    reads "file name" as the last path segment, [paths_in_artifact] as the
    expanded path itself. *)
Definition names_in_artifact (b : Output.t) (files : list string) : bool :=
  existsb (λ file, includes (search_string (Output.name b)) (basename file)) files.
Definition paths_in_artifact (b : Output.t) (files : list string) : bool :=
  existsb (λ file, includes (search_string (Output.name b)) file) files.

(** A project with two images under [src/assets], expanded relative to the
    source root, and one image under the public root [/app/public]. *)
Definition demo_fg_sync (pattern : string) (options : GlobOptions.t) : list string :=
  match GlobOptions.cwd options with
  | None =>
      if String.eqb pattern "src/assets/*.png"
      then ["src/assets/a.png"; "src/assets/b.png"] else []
  | Some root =>
      if String.eqb root "/app/public" && String.eqb pattern "img/*.png"
      then ["img/logo.png"] else []
  end.

Definition demo_world : World :=
  {| fg_sync := demo_fg_sync; globCache := ∅; scans := [] |}.

Definition demo_config : ResolvedConfig.t := ResolvedConfig.Build "/app/public".

Definition demo_plugin : Plugin :=
  {| dirs := DirsStr "src/assets/*.png"; attrs := []; batchSize := 2;
     publicDir := false; timeout := 5000; assets := []; config := None |}.

(** Scenario B: an artifact that exposes its source path. *)
Definition demo_exact : Output.t :=
  {| Output.fileName := "assets/a.1a2b.png"; Output.name := Some "a.png";
     Output.originalFileName := Some "src/assets/a.png" |}.

(** Scenario C: artifacts without a source path, the second one emitted for
    a same-named file of another directory. *)
Definition demo_fallback : Output.t :=
  {| Output.fileName := "assets/a.1a2b.png"; Output.name := Some "a.png";
     Output.originalFileName := None |}.
Definition demo_unrelated : Output.t :=
  {| Output.fileName := "other/a.9xZ.png"; Output.name := Some "a.png";
     Output.originalFileName := None |}.

(** The configuration declares exactly one target. *)
Definition single_target (p : Plugin) : Prop :=
  match dirs p with
  | DirsStr _ => True
  | DirsArr items => length items = 1%nat
  end.

(** The README's second example: bare patterns read from the public root
    through the global [publicDir] option. *)
Definition demo_public_plugin : Plugin :=
  {| dirs := DirsArr [ItemStr "img/*.png"]; attrs := []; batchSize := 2;
     publicDir := true; timeout := 5000; assets := []; config := None |}.

(** A computation that only extends the cache. *)
Definition grows {A} (m : M A) : Prop := ∀ w, extends w (m w).2.

(** The file system changes between two hooks; the module-level cache is
    not told. *)
Definition with_fg_sync (fs : string → GlobOptions.t → list string) (w : World)
    : World :=
  {| fg_sync := fs; globCache := globCache w; scans := scans w |}.

(** A project without a public root: Vite resolves [publicDir] to the empty
    string. *)
Definition demo_no_public_root : ResolvedConfig.t := ResolvedConfig.Build "".

(** One bare pattern with the global [publicDir] option set. *)
Definition demo_public_single : Plugin :=
  {| dirs := DirsStr "src/assets/*.png"; attrs := []; batchSize := 2;
     publicDir := true; timeout := 5000; assets := []; config := None |}.

(** The same project seen through a [fg.sync] that, like fast-glob,
    resolves an empty [cwd] against the process working directory. *)
Definition demo_fg_sync_cwd (pattern : string) (options : GlobOptions.t)
    : list string :=
  match GlobOptions.cwd options with
  | Some root =>
      if String.eqb root "" then demo_fg_sync pattern no_options
      else demo_fg_sync pattern options
  | None => demo_fg_sync pattern options
  end.

Definition demo_world_cwd : World :=
  {| fg_sync := demo_fg_sync_cwd; globCache := ∅; scans := [] |}.

(** ** The generated scheduler (the script of lines 241-289)

    The script runs in the browser's single-threaded event loop.  A state
    of the model is a state between two tasks; an event is one task (a
    handler of a link, a timer, or the microtask that resumes an [await] on
    a resolved promise) together with the promise reactions it triggers,
    which run before the next task. *)

Module Scheduler.

(** The messages written to the console. *)
Inductive Diag : Type :=
  | WarnTimeout (src : string)
  | WarnFailed (src : string)
  | ErrorCaught.

(** How the promise returned by [loadImage] settles. *)
Inductive Settled : Type := Fulfilled | Rejected.

(** One call of [loadImages]: suspended at [await] on the pending promise
    of [loadImage(src)]; suspended at [await] on the resolved promise that
    [loadImage] returns for a falsy [src]; returned, its promise fulfilled;
    or left by a rejection that nothing caught, its promise rejected, and
    with it the promise of [Promise.all], which has no handler. *)
Inductive Worker : Type :=
  | Loading (src : string)
  | Skipping
  | Exited
  | Crashed.

Record State : Type := MkState {
  images : list string;
  workers : list Worker;
  links : list string;
  overdue : list string;
  console : list Diag;
  finished : list string
}.
(** [images] is the queue; [links] the hrefs appended to the document head;
    [overdue] the links whose timer has fired while neither [onload] nor
    [onerror] has; [finished] records, for the statements only, the items
    whose [await] completed. *)

Definition set_images (st : State) (q : list string) : State :=
  MkState q (workers st) (links st) (overdue st) (console st) (finished st).
Definition set_workers (st : State) (ws : list Worker) : State :=
  MkState (images st) ws (links st) (overdue st) (console st) (finished st).
Definition add_link (st : State) (src : string) : State :=
  MkState (images st) (workers st) (links st ++ [src]) (overdue st) (console st)
          (finished st).
Definition set_overdue (st : State) (l : list string) : State :=
  MkState (images st) (workers st) (links st) l (console st) (finished st).
Definition log (st : State) (d : Diag) : State :=
  MkState (images st) (workers st) (links st) (overdue st) (console st ++ [d])
          (finished st).
Definition finish (st : State) (src : string) : State :=
  MkState (images st) (workers st) (links st) (overdue st) (console st)
          (finished st ++ [src]).

(** [loadImage(src)]: a falsy [src] gives a resolved promise; otherwise the
    executor appends the link and arms the timer. *)
Definition loadImage (src : string) (st : State) : Worker * State :=
  if str_truthy src then (Loading src, add_link st src) else (Skipping, st).

(** The head of [while (images.length)] up to the next [await]. *)
Definition loop (st : State) : Worker * State :=
  match images st with
  | [] => (Exited, st)
  | src :: rest => loadImage src (set_images st rest)
  end.

(** Worker [i] runs on from its [await]. *)
Definition resume (i : nat) (st : State) : State :=
  let '(wk, st') := loop st in set_workers st' (<[i := wk]> (workers st')).

(** [try { await promise } catch (error) { handler }], once the promise
    has settled: the state in which the function runs on, after the handler
    when the promise was rejected; [None] when a rejection meets no
    handler and leaves the function. *)
Definition after_await (handler : option (State → State)) (outcome : Settled)
    (st : State) : option State :=
  match outcome with
  | Fulfilled => Some st
  | Rejected =>
      match handler with
      | Some h => Some (h st)
      | None => None
      end
  end.

(** [catch (error) { console.error('[vite-plugin-preload-images] Error:',
    error) }] *)
Definition catch_error : option (State → State) :=
  Some (λ st, log st ErrorCaught).

(** Worker [i] once its [await loadImage(src)] has settled: it goes round
    the loop again, or it is left by the rejection. *)
Definition settled (i : nat) (src : string) (outcome : Settled) (st : State)
    : State :=
  match after_await catch_error outcome st with
  | Some st' => resume i (finish st' src)
  | None => set_workers st (<[i := Crashed]> (workers st))
  end.

Inductive Event : Type :=
  | Load (i : nat)
  | Fail (i : nat)
  | Timeout (i : nat)
  | Microtask (i : nat)
  | LateLoad (k : nat)
  | LateFail (k : nat).

Definition step (st : State) (ev : Event) : option State :=
  match ev with
  | Load i =>
      match workers st !! i with
      | Some (Loading src) => Some (settled i src Fulfilled st)
      | _ => None
      end
  | Fail i =>
      match workers st !! i with
      | Some (Loading src) =>
          Some (settled i src Rejected (log st (WarnFailed src)))
      | _ => None
      end
  | Timeout i =>
      match workers st !! i with
      | Some (Loading src) =>
          let st1 := set_overdue (log st (WarnTimeout src)) (overdue st ++ [src]) in
          Some (settled i src Rejected st1)
      | _ => None
      end
  | Microtask i =>
      match workers st !! i with
      | Some Skipping => Some (resume i (finish st ""))
      | _ => None
      end
  | LateLoad k =>
      match overdue st !! k with
      | Some _ => Some (set_overdue st (delete k (overdue st)))
      | None => None
      end
  | LateFail k =>
      match overdue st !! k with
      | Some src =>
          Some (log (set_overdue st (delete k (overdue st))) (WarnFailed src))
      | None => None
      end
  end.

(** [Array.from({ length: n }, loadImages)]: the calls run one after the
    other, each up to its first [await]. *)
Fixpoint spawn (n : nat) (st : State) : State :=
  match n with
  | O => st
  | S n' =>
      let '(wk, st') := loop st in
      spawn n' (set_workers st' (workers st' ++ [wk]))
  end.

(** How the script's one statement ends: with the workers suspended or
    returned, or with the RangeError of an array length of 2^32 or more,
    thrown before any worker is called. *)
Inductive Started : Type :=
  | Running (st : State)
  | RangeError.

(** [Promise.all(Array.from({ length: batchSize }, loadImages))] *)
Definition start (script : Script.t) : Started :=
  let len := ToLength (Script.batchSize script) in
  if 2 ^ 32 <=? len then RangeError
  else Running (spawn (Z.to_nat len)
                  (MkState (Script.images script) [] [] [] [] [])).

Fixpoint run_from (st : State) (events : list Event) : option State :=
  match events with
  | [] => Some st
  | ev :: rest =>
      match step st ev with
      | Some st' => run_from st' rest
      | None => None
      end
  end.

(** The state after the events, when the script started and each event
    could happen. *)
Definition run (started : Started) (events : list Event) : option State :=
  match started with
  | Running st => run_from st events
  | RangeError => None
  end.

(** The item a worker is busy with. *)
Definition item_of (wk : Worker) : list string :=
  match wk with
  | Loading src => [src]
  | Skipping => [""]
  | Exited | Crashed => []
  end.

Definition in_progress (ws : list Worker) : list string :=
  concat (map item_of ws).

(** Items whose [loadImage] promise is pending. *)
Definition is_loading (wk : Worker) : bool :=
  match wk with Loading _ => true | _ => false end.
Definition in_flight (st : State) : nat :=
  length (List.filter is_loading (workers st)).

(** Links that may still be loading: those of the pending promises and
    those whose timer has fired, which the script leaves in the document. *)
Definition loading_links (st : State) : nat :=
  (in_flight st + length (overdue st))%nat.


(** How many of the events are timeouts. *)
Definition is_timeout (ev : Event) : bool :=
  match ev with Timeout _ => true | _ => false end.
Definition timeouts (events : list Event) : nat :=
  length (List.filter is_timeout events).

(** Nothing is left to happen. *)
Definition quiescent (st : State) : Prop :=
  Forall (λ wk, wk = Exited) (workers st) ∧ overdue st = [].


End Scheduler.

(** Scenario D: five resolved URLs and two workers. *)
Definition demo_script : Script.t :=
  render_script demo_plugin ["a.png"; "b.png"; "c.png"; "d.png"; "e.png"].

(** Every target reads from the public root: a bare string under the
    global [publicDir] option, or a record with [publicDir: true]. *)
Definition all_public (p : Plugin) : Prop :=
  match dirs p with
  | DirsStr _ => publicDir p = true
  | DirsArr items =>
      ∀ item, item ∈ items →
        match item with
        | ItemStr _ => publicDir p = true
        | ItemObj d => DirOptions.publicDir d = true
        end
  end.

(** The test of the earlier revision (lines 440-471 of the source file,
    the CommonJS build and the earlier of the two ES-module builds; the
    later ES-module build has the fallback of the current revision):
    [files?.includes(Reflect.get(bundle, 'originalFileName'))], with no
    fallback on the symbolic name. *)
Definition match_original_only (bundle : Output.t) (files : option (list string))
    : bool :=
  match files with
  | None => false
  | Some files =>
      match Output.originalFileName bundle with
      | Some original => bool_decide (original ∈ files)
      | None => false
      end
  end.

(** [generateBundle] of the earlier revision, which these two builds
    carry: the same walk over the targets, each pushing the final names of
    the artifacts whose [originalFileName] is in the pattern's expansion. *)
Definition collect_dist (pattern : string) (bundles : list Output.t)
    (assets : list string) (w : World) : list string * World :=
  let '(files, w') := getCachedGlobSync pattern no_options w in
  (foldl (λ assets bundle,
            if match_original_only bundle files
            then assets ++ [Output.fileName bundle] else assets)
         assets bundles, w').

Definition generateBundle_dist_item (p : Plugin) (bundles : list Output.t)
    (st : list string * World) (item : DirItem) : list string * World :=
  let '(assets, w) := st in
  match item with
  | ItemStr pattern =>
      if negb (publicDir p) then collect_dist pattern bundles assets w
      else (assets, w)
  | ItemObj d =>
      if negb (DirOptions.publicDir d)
      then collect_dist (DirOptions.dir d) bundles assets w
      else (assets, w)
  end.

Definition generateBundle_dist (p : Plugin) (bundle : list (string * Output.t))
    (w : World) : Plugin * World :=
  let bundles := Object_values bundle in
  match dirs p with
  | DirsStr pattern =>
      if negb (publicDir p)
      then let '(assets', w') := collect_dist pattern bundles (assets p) w in
           (set_assets p assets', w')
      else (p, w)
  | DirsArr items =>
      let '(assets', w') :=
        foldl (generateBundle_dist_item p bundles) (assets p, w) items in
      (set_assets p assets', w')
  end.

(** The links in the document are the truthy items taken from the front
    of the queue, in queue order. *)
Definition in_queue_order (all : list string) (st : Scheduler.State) : Prop :=
  ∃ taken, all = taken ++ Scheduler.images st ∧
           Scheduler.links st = List.filter str_truthy taken.

(** The final names [collectMatchedFiles] returns for [pattern] once its
    expansion is in the cache of [w]: those of the artifacts that match the
    cached expansion, in bundle order. *)
Definition matched_names (w : World) (pattern : string) (bundles : list Output.t)
    : list string :=
  Output.fileName <$>
    filter (λ b, matchBundleWithFiles b (globCache w !! cache_key pattern no_options)
                 = true) bundles.

(** What one transform of a build appends before [assets]: the expansions
    of the targets that read from the public root. *)
Definition public_images (p : Plugin) (rc : ResolvedConfig.t) (w : World)
    : list string :=
  (lookups (requests p (ResolvedConfig.publicDir rc) false) [] w).1.

(** An artifact that exposes a source path outside [src/assets]. *)
Definition demo_elsewhere : Output.t :=
  {| Output.fileName := "assets/c.3c4d.png"; Output.name := Some "c.png";
     Output.originalFileName := Some "src/other/c.png" |}.

(** An artifact without a source path, emitted for a file whose name
    [xa.png] ends in the name of an expanded file. *)
Definition demo_longer_name : Output.t :=
  {| Output.fileName := "other/xa.5e6f.png"; Output.name := Some "xa.png";
     Output.originalFileName := None |}.


(** Scenario D, as far as a load, a timeout and a failure: [a.png] loads,
    [c.png] times out and [b.png] fails, which leaves the two workers
    awaiting [d.png] and [e.png]. *)
Definition demo_events : list Scheduler.Event :=
  [Scheduler.Load 0; Scheduler.Timeout 0; Scheduler.Fail 1].

Definition demo_failed : Scheduler.State :=
  {| Scheduler.images := [];
     Scheduler.workers := [Scheduler.Loading "d.png"; Scheduler.Loading "e.png"];
     Scheduler.links := ["a.png"; "b.png"; "c.png"; "d.png"; "e.png"];
     Scheduler.overdue := ["c.png"];
     Scheduler.console :=
       [Scheduler.WarnTimeout "c.png"; Scheduler.ErrorCaught;
        Scheduler.WarnFailed "b.png"; Scheduler.ErrorCaught];
     Scheduler.finished := ["a.png"; "c.png"; "b.png"] |}.


Definition demo_done : Scheduler.State :=
  {| Scheduler.images := [];
     Scheduler.workers := [Scheduler.Exited; Scheduler.Exited];
     Scheduler.links := ["a.png"; "b.png"; "c.png"; "d.png"; "e.png"];
     Scheduler.overdue := [];
     Scheduler.console :=
       [Scheduler.WarnTimeout "c.png"; Scheduler.ErrorCaught;
        Scheduler.WarnFailed "b.png"; Scheduler.ErrorCaught;
        Scheduler.WarnFailed "e.png"; Scheduler.ErrorCaught;
        Scheduler.WarnFailed "c.png"];
     Scheduler.finished := ["a.png"; "c.png"; "b.png"; "d.png"; "e.png"] |}.

(** * Properties *)

(** ** Strings *)

Lemma string_app_cons (c : ascii) (s t : string) :
  String c s +:+ t = String c (s +:+ t).
Proof. reflexivity. Qed.

Lemma string_app_nil_l (s : string) : "" +:+ s = s.
Proof. reflexivity. Qed.

Lemma string_app_nil_r (s : string) : s +:+ "" = s.
Proof.
  induction s as [|c s IH]; [done |]. by rewrite string_app_cons, IH.
Qed.

Lemma string_app_assoc (a b c : string) : (a +:+ b) +:+ c = a +:+ b +:+ c.
Proof.
  induction a as [|x a IH]; [done |]. by rewrite !string_app_cons, IH.
Qed.

Lemma starts_with_true_iff (s t : string) :
  starts_with s t = true ↔ ∃ post, s = t +:+ post.
Proof.
  revert s. induction t as [|c t IH]; intros s; simpl.
  - split; [intros _; by exists s | done].
  - destruct s as [|d s].
    + split; [done | intros [post H]; discriminate].
    + destruct (Ascii.eqb_spec c d) as [->|Hne].
      * rewrite IH. split; intros [post H]; exists post.
        -- by rewrite string_app_cons, <- H.
        -- rewrite string_app_cons in H. congruence.
      * split; [done | intros [post H]].
        rewrite string_app_cons in H. congruence.
Qed.

(** [includes s t] holds exactly when [t] occurs inside [s]. *)
Lemma includes_true_iff (s t : string) :
  includes s t = true ↔ ∃ pre post, s = pre +:+ t +:+ post.
Proof.
  induction s as [|c s IH]; simpl.
  - rewrite orb_false_r, starts_with_true_iff. split.
    + intros [post H]. by exists "", post.
    + intros [pre [post H]]. destruct pre; [by exists post | discriminate].
  - rewrite orb_true_iff, starts_with_true_iff, IH. split.
    + intros [[post H] | [pre [post H]]].
      * by exists "", post.
      * exists (String c pre), post. by rewrite string_app_cons, <- H.
    + intros [pre [post H]]. destruct pre as [|d pre].
      * left. by exists post.
      * right. rewrite string_app_cons in H. injection H as -> H.
        by exists pre, post.
Qed.

Lemma includes_self_app (pre t post : string) :
  includes (pre +:+ t +:+ post) t = true.
Proof. apply includes_true_iff. by exists pre, post. Qed.

(** The last segment of a path is its end. *)
Lemma basename_from_suffix (acc path : string) :
  ∃ pre, acc +:+ path = pre +:+ basename_from acc path.
Proof.
  revert acc. induction path as [|c rest IH]; intros acc; cbn [basename_from].
  - exists "". by rewrite string_app_nil_r.
  - destruct (Ascii.eqb c "/").
    + destruct (IH "") as [pre Hpre]. rewrite string_app_nil_l in Hpre.
      exists (acc +:+ String c pre).
      by rewrite string_app_assoc, string_app_cons, <- Hpre.
    + destruct (IH (acc +:+ String c "")) as [pre Hpre].
      exists pre. rewrite <- Hpre. by rewrite string_app_assoc.
Qed.

Lemma includes_basename (path : string) : includes path (basename path) = true.
Proof.
  destruct (basename_from_suffix "" path) as [pre Hpre].
  rewrite string_app_nil_l in Hpre. apply includes_true_iff.
  exists pre, "". by rewrite string_app_nil_r.
Qed.

(** A joined list of messages contains each of its members. *)
Lemma join_includes (sep : string) (pieces : list string) (m : string) :
  m ∈ pieces → includes (join sep pieces) m = true.
Proof.
  intros Hin. apply includes_true_iff.
  induction pieces as [|p rest IH]; [by apply elem_of_nil in Hin |].
  apply elem_of_cons in Hin as [-> | Hin].
  - destruct rest as [|q rest].
    + exists "", "". by rewrite string_app_nil_r.
    + by exists "", (sep +:+ join sep (q :: rest)).
  - destruct (IH Hin) as [pre [post H]].
    destruct rest as [|q rest]; [by apply elem_of_nil in Hin |].
    exists (p +:+ sep +:+ pre), post.
    change (join sep (p :: q :: rest)) with (p +:+ sep +:+ join sep (q :: rest)).
    by rewrite H, !string_app_assoc.
Qed.

(** ** Insertion-ordered sets *)

Section ordered_set.
Implicit Types (s l : list string) (x : string).

Lemma Set_add_elem s x y : y ∈ Set_add s x ↔ y ∈ s ∨ y = x.
Proof.
  unfold Set_add. case_bool_decide as Hx.
  - split; [by left | intros [?| ->]; done].
  - rewrite elem_of_app, list_elem_of_singleton. done.
Qed.

Lemma Set_add_NoDup s x : NoDup s → NoDup (Set_add s x).
Proof.
  intros Hs. unfold Set_add. case_bool_decide as Hx; [done |].
  apply NoDup_app. split_and!; [done | | apply NoDup_singleton].
  intros y Hy ->%list_elem_of_singleton. done.
Qed.

Lemma Set_add_prefix s x : s `prefix_of` Set_add s x.
Proof.
  unfold Set_add. case_bool_decide; [done | by apply prefix_app_r].
Qed.

Lemma foldl_Set_add_elem s l y : y ∈ foldl Set_add s l ↔ y ∈ s ∨ y ∈ l.
Proof.
  revert s. induction l as [|x l IH]; intros s; simpl.
  - rewrite elem_of_nil. tauto.
  - rewrite IH, Set_add_elem, elem_of_cons. tauto.
Qed.

Lemma foldl_Set_add_NoDup s l : NoDup s → NoDup (foldl Set_add s l).
Proof.
  revert s. induction l as [|x l IH]; intros s Hs; simpl; [done |].
  by apply IH, Set_add_NoDup.
Qed.

Lemma foldl_Set_add_prefix s l : s `prefix_of` foldl Set_add s l.
Proof.
  revert s. induction l as [|x l IH]; intros s; simpl; [done |].
  etrans; [apply Set_add_prefix | apply IH].
Qed.

Lemma foldl_Set_add_absorb s l : (∀ x, x ∈ l → x ∈ s) → foldl Set_add s l = s.
Proof.
  revert s. induction l as [|x l IH]; intros s Hl; simpl; [done |].
  assert (Set_add s x = s) as ->.
  { unfold Set_add. rewrite bool_decide_true; [done |]. apply Hl. by left. }
  apply IH. intros y Hy. apply Hl. by right.
Qed.

Lemma new_Set_elem l y : y ∈ new_Set l ↔ y ∈ l.
Proof. unfold new_Set. rewrite foldl_Set_add_elem, elem_of_nil. tauto. Qed.

Lemma new_Set_NoDup l : NoDup (new_Set l).
Proof. apply foldl_Set_add_NoDup, NoDup_nil_2. Qed.

Lemma new_Set_app l1 l2 : new_Set (l1 ++ l2) = foldl Set_add (new_Set l1) l2.
Proof. unfold new_Set. by rewrite foldl_app. Qed.

(** The element first met at position [length l1] comes right after the
    distinct elements of [l1]. *)
Lemma new_Set_first_occurrence l1 x l2 :
  x ∉ l1 → ∃ rest, new_Set (l1 ++ x :: l2) = new_Set l1 ++ x :: rest.
Proof.
  intros Hx. rewrite new_Set_app. simpl.
  assert (Set_add (new_Set l1) x = new_Set l1 ++ [x]) as ->.
  { unfold Set_add. rewrite bool_decide_false; [done |]. by rewrite new_Set_elem. }
  destruct (foldl_Set_add_prefix (new_Set l1 ++ [x]) l2) as [rest ->].
  exists rest. by rewrite <- app_assoc.
Qed.

Lemma new_Set_absorb l1 l2 :
  (∀ x, x ∈ l2 → x ∈ l1) → new_Set (l1 ++ l2) = new_Set l1.
Proof.
  intros H. rewrite new_Set_app. apply foldl_Set_add_absorb.
  intros x Hx. rewrite new_Set_elem. by apply H.
Qed.

Lemma foldl_Set_add_id s l :
  NoDup (s ++ l) → foldl Set_add s l = s ++ l.
Proof.
  revert s. induction l as [|x l IH]; intros s Hnd; simpl.
  - by rewrite app_nil_r.
  - assert (Set_add s x = s ++ [x]) as ->.
    { unfold Set_add. rewrite bool_decide_false; [done |].
      apply NoDup_app in Hnd as (_ & Hd & _). intros Hx.
      apply (Hd x Hx). by left. }
    rewrite IH; rewrite <- app_assoc; done.
Qed.

(** A list without duplicates is its own set. *)
Lemma new_Set_id l : NoDup l → new_Set l = l.
Proof. intros H. unfold new_Set. by rewrite foldl_Set_add_id. Qed.
(** Order of first occurrence: when [x] comes before [y] in the set, [x]
    is first met in [l] before any occurrence of [y]. *)
Lemma new_Set_order l i j x y :
  new_Set l !! i = Some x → new_Set l !! j = Some y → (i < j)%nat →
  ∃ l1 l2, l = l1 ++ x :: l2 ∧ (x ∉ l1) ∧ (y ∉ l1) ∧ y ∈ l2.
Proof.
  intros Hi Hj Hij.
  assert (x ∈ l) as Hx by (eapply new_Set_elem, list_elem_of_lookup_2; done).
  assert (y ∈ l) as Hy by (eapply new_Set_elem, list_elem_of_lookup_2; done).
  destruct (list_elem_of_split_l l x Hx) as (l1 & l2 & -> & Hx1).
  destruct (new_Set_first_occurrence l1 x l2 Hx1) as [rest Hr].
  pose proof (new_Set_NoDup (l1 ++ x :: l2)) as Hnd.
  assert (i = length (new_Set l1)) as ->.
  { eapply NoDup_lookup; [done | done |]. rewrite Hr. apply list_lookup_middle. done. }
  assert (y ∉ l1) as Hy1.
  { intros Hin. apply new_Set_elem, list_elem_of_lookup_1 in Hin as [k Hk].
    assert (k < length (new_Set l1))%nat by (by eapply lookup_lt_Some).
    assert (j = k); [|lia].
    eapply NoDup_lookup; [done | done |]. rewrite Hr.
    by rewrite lookup_app_l. }
  assert (x ≠ y) as Hne.
  { intros ->. assert (length (new_Set l1) = j); [|lia].
    eapply NoDup_lookup; [done | | done]. rewrite Hr. by apply list_lookup_middle. }
  exists l1, l2. split_and!; [done | done | done |].
  apply elem_of_app in Hy as [?|[?|?]%elem_of_cons]; done.
Qed.
End ordered_set.

(** ** Validation *)

Section validation.
Implicit Types (options props : list (string * Val)) (errors : list string).

Lemma check_item_null errors index :
  check_item errors Null index =
    Threw (TypeError "Cannot use 'in' operator to search for 'dir' in null").
Proof. reflexivity. Qed.

Lemma check_item_not_null errors index item :
  item ≠ Null →
  check_item errors item index =
    Returned (errors ++ option_list (item_message index item)).
Proof.
  intros Hnull. destruct item as [| |b|n|s|items|props]; try done;
    try (cbn; by rewrite ?app_nil_r).
  - cbn. destruct (String.eqb (trim s) ""); cbn; by rewrite ?app_nil_r.
  - cbn. destruct (has "dir" props); cbn; [|done].
    destruct (has "publicDir" props); cbn; by rewrite ?app_nil_r.
Qed.

Lemma forEach_check_item index items errors :
  match forEach_from check_item index items errors with
  | Returned errs => errs = errors ++ item_messages index items
  | Threw e =>
      Null ∈ items ∧
      e = TypeError "Cannot use 'in' operator to search for 'dir' in null"
  end.
Proof.
  revert index errors. induction items as [|item rest IH]; intros index errors.
  - cbn. by rewrite app_nil_r.
  - cbn [forEach_from].
    assert (item = Null ∨ item ≠ Null) as [->|Hnn]
      by (destruct item; (by left) || (by right)).
    + rewrite check_item_null. cbn. split; [by left | done].
    + rewrite check_item_not_null by done. cbn [Js.bind].
      specialize (IH (S index) (errors ++ option_list (item_message index item))).
      destruct (forEach_from check_item (S index) rest _) as [errs|e].
      * rewrite IH. cbn [item_messages]. by rewrite app_assoc.
      * destruct IH as [Hin ->]. split; [by right | done].
Qed.

Lemma item_messages_lookup index items j item m :
  items !! j = Some item →
  item_message (index + j) item = Some m →
  m ∈ item_messages index items.
Proof.
  revert index j. induction items as [|x rest IH]; intros index j Hj Hm; [done |].
  cbn [item_messages]. apply elem_of_app. destruct j as [|j].
  - injection Hj as ->. rewrite Nat.add_0_r in Hm. rewrite Hm. left. by left.
  - right. apply (IH (S index) j); [done |].
    by replace (S index + j)%nat with (index + S j)%nat by lia.
Qed.

Lemma check_dirs_outcome dirs :
  match check_dirs dirs [] with
  | Returned errs => errs = dirs_messages dirs
  | Threw e =>
      (∃ items, dirs = Arr items ∧ Null ∈ items) ∧
      e = TypeError "Cannot use 'in' operator to search for 'dir' in null"
  end.
Proof.
  unfold check_dirs, dirs_messages.
  destruct (negb (truthy dirs)) eqn:Ht; [done |].
  destruct dirs as [| |b|n|s|items|props]; try done.
  cbn. unfold forEach.
  pose proof (forEach_check_item 0 items []) as H.
  destruct (forEach_from check_item 0 items []) as [errs|e]; [done |].
  destruct H as [Hin ->]. split; [by exists items | done].
Qed.

(** What [validateOptions] does, in full: it returns when no check
    fails, and otherwise throws the one error that joins the messages of
    all failed checks; a [null] array item makes the type guard throw. *)
Lemma validateOptions_outcome options :
  match validateOptions options with
  | Returned _ => all_messages options = []
  | Threw e =>
      (all_messages options ≠ [] ∧ e = config_error (all_messages options)) ∨
      ((∃ items, get "dirs" options = Arr items ∧ Null ∈ items) ∧
       e = TypeError "Cannot use 'in' operator to search for 'dir' in null")
  end.
Proof.
  unfold validateOptions, all_messages.
  pose proof (check_dirs_outcome (get "dirs" options)) as H.
  destruct (check_dirs (get "dirs" options) []) as [errs|e]; cbn [Js.bind].
  - subst errs.
    destruct (check_timeout options
                (check_batchSize options (dirs_messages (get "dirs" options))));
      [done | by left].
  - by right.
Qed.

Lemma check_batchSize_elem options errors m :
  m ∈ errors → m ∈ check_batchSize options errors.
Proof.
  intros H. unfold check_batchSize.
  destruct (_ && _); [apply elem_of_app; by left | done].
Qed.

Lemma check_timeout_elem options errors m :
  m ∈ errors → m ∈ check_timeout options errors.
Proof.
  intros H. unfold check_timeout.
  destruct (_ && _); [apply elem_of_app; by left | done].
Qed.

Lemma all_messages_dirs options m :
  m ∈ dirs_messages (get "dirs" options) → m ∈ all_messages options.
Proof. intros H. by apply check_timeout_elem, check_batchSize_elem. Qed.

Lemma all_messages_batchSize options (n : Z) :
  lookup_prop "batchSize" options = Some (Num n) → n < 1 →
  msg_batchSize ∈ all_messages options.
Proof.
  intros Hl Hn. apply check_timeout_elem. unfold check_batchSize, has, get.
  rewrite Hl. cbn. assert ((n <? 1) = true) as -> by lia.
  apply elem_of_app. right. by left.
Qed.

Lemma all_messages_timeout options (n : Z) :
  lookup_prop "timeout" options = Some (Num n) → n < 1000 →
  msg_timeout ∈ all_messages options.
Proof.
  intros Hl Hn. unfold all_messages, check_timeout at 1, has, get.
  rewrite Hl. cbn. assert ((n <? 1000) = true) as -> by lia.
  apply elem_of_app. right. by left.
Qed.

Lemma config_error_mentions errors m :
  m ∈ errors →
  ∃ text, config_error errors = Error text ∧ includes text m = true.
Proof.
  intros H. eexists. split; [reflexivity |].
  apply includes_true_iff.
  apply join_includes with (sep := " ") in H.
  apply includes_true_iff in H as [pre [post ->]].
  exists ("[vite-plugin-preload-images]: " +:+ pre), post.
  by rewrite !string_app_assoc.
Qed.
End validation.

(** ** The expansion cache *)

Section cache.
Implicit Types (w : World) (pattern : string) (options : GlobOptions.t).

Lemma getCachedGlobSync_hit pattern options w files :
  globCache w !! cache_key pattern options = Some files →
  getCachedGlobSync pattern options w = (Some files, w).
Proof.
  intros H. unfold getCachedGlobSync. cbn zeta.
  rewrite bool_decide_true by (rewrite H; eauto). by rewrite H.
Qed.

Lemma getCachedGlobSync_miss pattern options w :
  globCache w !! cache_key pattern options = None →
  getCachedGlobSync pattern options w =
    (Some (fg_sync w pattern options),
     scan_and_store (cache_key pattern options) pattern options w).
Proof.
  intros H. unfold getCachedGlobSync. cbn zeta.
  rewrite bool_decide_false by (rewrite H; by intros [? ?]).
  cbn. by rewrite lookup_insert_eq.
Qed.

(** A lookup always yields a list, leaves it in the cache, keeps every
    earlier entry and never touches the file system oracle. *)
Lemma getCachedGlobSync_spec pattern options w :
  ∃ files w',
    getCachedGlobSync pattern options w = (Some files, w') ∧
    globCache w' !! cache_key pattern options = Some files ∧
    globCache w ⊆ globCache w' ∧
    fg_sync w' = fg_sync w.
Proof.
  destruct (globCache w !! cache_key pattern options) as [files|] eqn:H.
  - exists files, w. by rewrite (getCachedGlobSync_hit _ _ _ _ H).
  - eexists _, _. rewrite (getCachedGlobSync_miss _ _ _ H).
    split_and!; [done | apply lookup_insert_eq | by apply insert_subseteq | done].
Qed.
End cache.

(** ** Runs of cached expansions *)

Lemma lookups_acc reqs images (w : World) :
  lookups reqs images w =
  let '(added, w') := lookups reqs [] w in (images ++ added, w').
Proof.
  revert images w. induction reqs as [|[pattern options] rest IH]; intros images w.
  - cbn. by rewrite app_nil_r.
  - cbn [lookups].
    destruct (getCachedGlobSync_spec pattern options w) as (files & w1 & -> & _).
    cbn [push_files]. rewrite (IH (images ++ files)), (IH ([] ++ files)).
    destruct (lookups rest [] w1) as [added w']. by rewrite app_assoc.
Qed.

(** ** Cache keys *)

Section keys.
Implicit Types (s t : string) (w : World).

Lemma chars_app s t :
  String.list_ascii_of_string (s +:+ t) = String.list_ascii_of_string s ++ String.list_ascii_of_string t.
Proof.
  induction s as [|c s IH]; [done |].
  rewrite string_app_cons. cbn. by rewrite IH.
Qed.

Lemma chars_inj s t : String.list_ascii_of_string s = String.list_ascii_of_string t → s = t.
Proof.
  intros H. rewrite <- (String.string_of_list_ascii_of_string s),
    <- (String.string_of_list_ascii_of_string t). by rewrite H.
Qed.

Lemma string_app_inv_tail s1 s2 t : s1 +:+ t = s2 +:+ t → s1 = s2.
Proof.
  intros H. apply chars_inj. apply (f_equal String.list_ascii_of_string) in H.
  rewrite !chars_app in H. by apply app_inv_tail in H.
Qed.

Lemma chars_JSON_stringify_string s :
  String.list_ascii_of_string (JSON_stringify_string s) =
  dquote :: String.list_ascii_of_string (json_escape_all s) ++ [dquote].
Proof. unfold JSON_stringify_string. cbn. by rewrite chars_app. Qed.

Lemma chars_key_no_options pattern :
  String.list_ascii_of_string (cache_key pattern no_options) =
  (String.list_ascii_of_string pattern ++ ["-"%char]) ++ ["{"; "}"]%char.
Proof. unfold cache_key. rewrite chars_app. by rewrite <- app_assoc. Qed.

Lemma chars_key_cwd pattern root :
  ∃ l, String.list_ascii_of_string (cache_key pattern (cwd_options root)) =
       l ++ [dquote; "}"%char].
Proof.
  unfold cache_key, JSON_stringify. cbn [GlobOptions.cwd].
  rewrite !chars_app, (chars_JSON_stringify_string root).
  exists (String.list_ascii_of_string pattern ++
          String.list_ascii_of_string "-" ++
          String.list_ascii_of_string "{" ++
          String.list_ascii_of_string (JSON_stringify_string "cwd") ++
          String.list_ascii_of_string ":" ++
          dquote :: String.list_ascii_of_string (json_escape_all root)).
  rewrite <- !app_assoc. do 5 f_equal.
  change (String.list_ascii_of_string "}") with ["}"%char].
  cbn [app]. by rewrite <- app_assoc.
Qed.

Lemma cache_key_no_options_ne pattern pattern' root :
  cache_key pattern no_options ≠ cache_key pattern' (cwd_options root).
Proof.
  intros H. apply (f_equal String.list_ascii_of_string) in H.
  destruct (chars_key_cwd pattern' root) as [l Hl].
  rewrite chars_key_no_options, Hl in H.
  apply app_inj_2 in H as [_ H]; [discriminate | done].
Qed.

(** Within the options of one instance, a cache key determines the request. *)
Lemma cache_key_inj root pattern options pattern' options' :
  in_family root options → in_family root options' →
  cache_key pattern options = cache_key pattern' options' →
  pattern = pattern' ∧ options = options'.
Proof.
  intros [->| ->] [->| ->] H.
  - split; [|done]. by apply string_app_inv_tail in H.
  - by apply cache_key_no_options_ne in H.
  - symmetry in H. by apply cache_key_no_options_ne in H.
  - split; [|done]. by apply string_app_inv_tail in H.
Qed.

Lemma coherent_empty root fs log : coherent root (MkWorld fs ∅ log).
Proof. intros pattern options files _ H. cbn in H. by rewrite lookup_empty in H. Qed.

Lemma getCachedGlobSync_coherent root pattern options w :
  coherent root w → in_family root options →
  ∃ w', getCachedGlobSync pattern options w = (Some (fg_sync w pattern options), w') ∧
        coherent root w' ∧ fg_sync w' = fg_sync w.
Proof.
  intros Hc Hf.
  destruct (globCache w !! cache_key pattern options) as [files|] eqn:Hl.
  - exists w. rewrite (getCachedGlobSync_hit _ _ _ _ Hl).
    by rewrite (Hc _ _ _ Hf Hl).
  - eexists. rewrite (getCachedGlobSync_miss _ _ _ Hl). split_and!; [done | | done].
    intros q o files Hq Hlq. cbn in Hlq |- *.
    destruct (decide (cache_key pattern options = cache_key q o)) as [Heq|Hne].
    + rewrite Heq, lookup_insert_eq in Hlq.
      apply (cache_key_inj root) in Heq as [-> ->]; [congruence | done | done].
    + rewrite lookup_insert_ne in Hlq by done. by apply Hc.
Qed.

Lemma lookups_coherent root reqs w :
  coherent root w → Forall (λ req, in_family root req.2) reqs →
  ∃ w', lookups reqs [] w = (expansions w reqs, w') ∧
        coherent root w' ∧ fg_sync w' = fg_sync w.
Proof.
  revert w. induction reqs as [|[pattern options] rest IH]; intros w Hc Hall.
  - by exists w.
  - apply Forall_cons in Hall as [Hf Hall]. cbn [lookups].
    destruct (getCachedGlobSync_coherent root pattern options w Hc Hf)
      as (w1 & -> & Hc1 & Hfs1).
    destruct (IH w1 Hc1 Hall) as (w' & Hr & Hc' & Hfs').
    exists w'. cbn [push_files app]. rewrite lookups_acc, Hr.
    split_and!; [|done|congruence].
    unfold expansions. cbn. by rewrite Hfs1.
Qed.
End keys.

(** ** Matching artifacts *)

Section matching.
Implicit Types (w : World) (b : Output.t) (files : list string).

#[global] Instance extends_refl : Reflexive extends.
Proof. intros w. by split. Qed.

#[global] Instance extends_trans : Transitive extends.
Proof.
  intros w1 w2 w3 [H1 F1] [H2 F2]. split; [by etrans | congruence].
Qed.

Lemma extends_lookup w w' key files :
  extends w w' → globCache w !! key = Some files → globCache w' !! key = Some files.
Proof. intros [H _] Hl. by eapply lookup_weaken. Qed.

Lemma getCachedGlobSync_extends pattern options w :
  extends w (getCachedGlobSync pattern options w).2.
Proof.
  destruct (getCachedGlobSync_spec pattern options w) as (files & w' & -> & _ & ? & ?).
  by split.
Qed.

Lemma extends_hit pattern options w w' files :
  globCache w !! cache_key pattern options = Some files → extends w w' →
  getCachedGlobSync pattern options w' = (Some files, w').
Proof. intros H He. eapply getCachedGlobSync_hit, extends_lookup; done. Qed.

Lemma match_exact b files original :
  Output.originalFileName b = Some original → original ≠ "" →
  matchBundleWithFiles b (Some files) = true ↔ original ∈ files.
Proof.
  intros Ho Hne. unfold matchBundleWithFiles. rewrite Ho. cbn.
  destruct (String.eqb_spec original ""); [done |]. cbn.
  apply bool_decide_eq_true.
Qed.

Lemma match_fallback b files :
  truthy_prop (Output.originalFileName b) = false →
  matchBundleWithFiles b (Some files) = true ↔
  ∃ file, file ∈ files ∧ includes file (search_string (Output.name b)) = true.
Proof.
  intros Ho. unfold matchBundleWithFiles. rewrite Ho.
  rewrite existsb_exists. setoid_rewrite <- list_elem_of_In. done.
Qed.

Lemma collect_fold (files : option (list string)) (bundles : list Output.t)
    (acc : list string) :
  foldl (λ matchedFiles bundle,
           if matchBundleWithFiles bundle files
           then matchedFiles ++ [Output.fileName bundle] else matchedFiles)
        acc bundles
  = acc ++ (Output.fileName <$>
             filter (λ b, matchBundleWithFiles b files = true) bundles).
Proof.
  revert acc. induction bundles as [|b rest IH]; intros acc; cbn [foldl].
  - by rewrite app_nil_r.
  - rewrite IH. destruct (matchBundleWithFiles b files) eqn:Hm.
    + rewrite filter_cons_True by done. cbn. by rewrite <- app_assoc.
    + rewrite filter_cons_False by (by rewrite Hm). done.
Qed.

(** [collectMatchedFiles] returns, in bundle order, the final names of the
    artifacts that match the cached expansion of the pattern. *)
Lemma collectMatchedFiles_spec pattern bundles options w :
  ∃ files w',
    collectMatchedFiles pattern bundles options w =
      (Output.fileName <$>
         filter (λ b, matchBundleWithFiles b (Some files) = true) bundles, w') ∧
    getCachedGlobSync pattern options w = (Some files, w') ∧
    globCache w' !! cache_key pattern options = Some files ∧
    extends w w'.
Proof.
  destruct (getCachedGlobSync_spec pattern options w)
    as (files & w' & Hg & Hl & Hsub & Hfs).
  exists files, w'. unfold collectMatchedFiles. rewrite Hg.
  by rewrite collect_fold.
Qed.
End matching.

(** ** The hooks as sequences of cached expansions *)

Section hooks.
Implicit Types (p : Plugin) (w : World) (rc : ResolvedConfig.t).

Lemma source_target_patterns p pattern :
  source_target p pattern ↔ pattern ∈ source_patterns p.
Proof.
  unfold source_target, source_patterns. destruct (dirs p) as [s|items].
  - destruct (publicDir p); cbn.
    + rewrite elem_of_nil. split; [by intros [_ ?] | done].
    + rewrite list_elem_of_singleton. split; [by intros [-> _] | by intros ->].
  - rewrite list_elem_of_omap. split.
    + intros (item & Hin & Hs). exists item. split; [done |].
      destruct item as [s|d]; cbn in *; destruct Hs as [-> ->]; done.
    + intros (item & Hin & Hs). exists item. split; [done |].
      destruct item as [s|d]; cbn in *.
      * destruct (publicDir p); cbn in Hs; [done | by injection Hs as ->].
      * destruct (DirOptions.publicDir d); cbn in Hs; [done | by injection Hs as ->].
Qed.

Lemma generateBundle_items_collects p bundles items assets0 w :
  foldl (generateBundle_item p bundles) (assets0, w) items =
  collects (omap (item_source_pattern p) items) bundles assets0 w.
Proof.
  revert assets0 w. induction items as [|item rest IH]; intros assets0 w; [done |].
  cbn [foldl omap list_omap].
  destruct item as [s|d]; cbn [generateBundle_item item_source_pattern].
  - destruct (negb (publicDir p)); cbn [collects]; [|apply IH].
    destruct (collectMatchedFiles s bundles no_options w) as [matched w']. apply IH.
  - destruct (negb (DirOptions.publicDir d)); cbn [collects]; [|apply IH].
    destruct (collectMatchedFiles _ bundles no_options w) as [matched w']. apply IH.
Qed.

(** [generateBundle] is a run of [collectMatchedFiles] over the source
    patterns, pushing onto [assets]. *)
Lemma generateBundle_collects p bundle w :
  generateBundle p bundle w =
  let '(assets', w') := collects (source_patterns p) (Object_values bundle) (assets p) w in
  (set_assets p assets', w').
Proof.
  unfold generateBundle, source_patterns. destruct (dirs p) as [s|items].
  - destruct (negb (publicDir p)); cbn [collects].
    + by destruct (collectMatchedFiles s _ no_options w) as [matched w'].
    + by destruct p.
  - by rewrite generateBundle_items_collects.
Qed.

Lemma collects_acc patterns bundles assets0 w :
  collects patterns bundles assets0 w =
  let '(added, w') := collects patterns bundles [] w in (assets0 ++ added, w').
Proof.
  revert assets0 w. induction patterns as [|pattern rest IH]; intros assets0 w.
  - cbn. by rewrite app_nil_r.
  - cbn [collects].
    destruct (collectMatchedFiles pattern bundles no_options w) as [matched w1].
    rewrite (IH (assets0 ++ matched)), (IH ([] ++ matched)).
    destruct (collects rest bundles [] w1) as [added w'].
    by rewrite app_assoc.
Qed.

(** One run of [collects]: what it adds contains the final name of every
    artifact that matches the cached expansion of one of the patterns, and
    a later run over the same bundle adds the same names again. *)
Lemma collects_spec patterns bundles w :
  ∃ added w',
    collects patterns bundles [] w = (added, w') ∧
    extends w w' ∧
    (∀ pattern, pattern ∈ patterns →
       ∃ files, globCache w' !! cache_key pattern no_options = Some files ∧
         ∀ b, b ∈ bundles → matchBundleWithFiles b (Some files) = true →
              Output.fileName b ∈ added) ∧
    (∀ w'', extends w' w'' → collects patterns bundles [] w'' = (added, w'')).
Proof.
  revert w. induction patterns as [|pattern rest IH]; intros w.
  - exists [], w. cbn. split_and!; [done | done | | done].
    intros ? []%elem_of_nil.
  - cbn [collects].
    destruct (collectMatchedFiles_spec pattern bundles no_options w)
      as (files & w1 & -> & Hg & Hl & He1).
    set (matched := Output.fileName <$> _).
    destruct (IH w1) as (added & w' & Hc & He2 & Hin & Hrep).
    rewrite collects_acc, Hc.
    exists (matched ++ added), w'. split_and!.
    + done.
    + by etrans.
    + intros q [->|Hq]%elem_of_cons.
      * exists files. split; [by eapply extends_lookup |].
        intros b Hb Hm. apply elem_of_app. left.
        apply list_elem_of_fmap. exists b. split; [done |].
        by apply list_elem_of_filter.
      * destruct (Hin q Hq) as (fs & Hfs & Hall). exists fs. split; [done |].
        intros b Hb Hm. apply elem_of_app. right. by apply Hall.
    + intros w'' He3. unfold collectMatchedFiles.
      rewrite (extends_hit pattern no_options w1 w'' files) by (done || by etrans).
      rewrite collect_fold. cbn [app]. fold matched.
      by rewrite collects_acc, (Hrep w'' He3).
Qed.
(** One run of [lookups] only extends the cache, and a later run of the
    same requests returns the same list without changing the world. *)
Lemma lookups_spec reqs w :
  ∃ added w',
    lookups reqs [] w = (added, w') ∧
    extends w w' ∧
    (∀ w'', extends w' w'' → lookups reqs [] w'' = (added, w'')).
Proof.
  revert w. induction reqs as [|[pattern options] rest IH]; intros w.
  - by exists [], w.
  - cbn [lookups].
    destruct (getCachedGlobSync_spec pattern options w)
      as (files & w1 & -> & Hl & Hsub & Hfs).
    destruct (IH w1) as (added & w' & Hr & He & Hrep).
    cbn [push_files app]. rewrite lookups_acc, Hr.
    exists (files ++ added), w'. split_and!; [done | | ].
    + etrans; [by split | done].
    + intros w'' He'.
      rewrite (extends_hit pattern options w1 w'' files) by (done || by etrans).
      cbn [push_files app]. by rewrite lookups_acc, (Hrep w'' He').
Qed.

Lemma config_publicDir_run p rc w :
  config_publicDir (configResolved rc p) w = (Returned (ResolvedConfig.publicDir rc), w).
Proof. reflexivity. Qed.

Lemma and_not_public_root_run p rc flag w :
  and_not_public_root (configResolved rc p) flag w =
  (Returned (flag && negb (str_truthy (ResolvedConfig.publicDir rc))), w).
Proof. by destruct flag. Qed.

Lemma and_public_root_run p rc flag w :
  and_public_root (configResolved rc p) flag w =
  (Returned (flag && str_truthy (ResolvedConfig.publicDir rc)), w).
Proof. by destruct flag. Qed.

Lemma cwd_if_run p rc flag w :
  cwd_if (configResolved rc p) flag w =
  (Returned (if flag then cwd_options (ResolvedConfig.publicDir rc) else no_options), w).
Proof. by destruct flag. Qed.

Lemma glob_into_run images pattern options w :
  glob_into images pattern options w =
  let '(files, w') := getCachedGlobSync pattern options w in
  (Returned (push_files images files), w').
Proof.
  unfold glob_into, mbind', lift, ret.
  by destruct (getCachedGlobSync pattern options w).
Qed.

Lemma mbind'_run {A B} (m : M A) (k : A → M B) w :
  mbind' m k w =
  match m w with
  | (Returned a, w') => k a w'
  | (Threw e, w') => (Threw e, w')
  end.
Proof. reflexivity. Qed.

Lemma dev_item_run p rc images item w :
  dev_item (configResolved rc p) images item w =
  match dev_request p (ResolvedConfig.publicDir rc) item with
  | Some (pattern, options) => glob_into images pattern options w
  | None => (Returned images, w)
  end.
Proof.
  unfold dev_item, dev_request.
  destruct item as [s|d]; cbn [item_target];
    rewrite mbind'_run, and_not_public_root_run;
    change (publicDir (configResolved rc p)) with (publicDir p);
    match goal with |- context [?f && negb ?t] => destruct (f && negb t) end;
    try done; by rewrite mbind'_run, cwd_if_run.
Qed.

Lemma prod_public_run p rc images pattern flag w :
  prod_public (configResolved rc p) images pattern flag w =
  if flag && str_truthy (ResolvedConfig.publicDir rc)
  then glob_into images pattern (cwd_options (ResolvedConfig.publicDir rc)) w
  else (Returned images, w).
Proof.
  unfold prod_public. rewrite mbind'_run, and_public_root_run.
  destruct (flag && _); [|done]. by rewrite mbind'_run, config_publicDir_run.
Qed.

Lemma prod_item_run p rc images item w :
  prod_item (configResolved rc p) images item w =
  match prod_request p (ResolvedConfig.publicDir rc) item with
  | Some (pattern, options) => glob_into images pattern options w
  | None => (Returned images, w)
  end.
Proof.
  unfold prod_item, prod_request.
  destruct item as [s|d]; cbn [item_target]; rewrite prod_public_run;
    change (publicDir (configResolved rc p)) with (publicDir p);
    by destruct (_ && _).
Qed.

Lemma forEachM_lookups (f : list string → DirItem → M (list string))
    (request : DirItem → option (string * GlobOptions.t)) items images w :
  (∀ images item w,
     f images item w =
     match request item with
     | Some (pattern, options) => glob_into images pattern options w
     | None => (Returned images, w)
     end) →
  forEachM f items images w =
  let '(imgs, w') := lookups (omap request items) images w in (Returned imgs, w').
Proof.
  intros Hf. revert images w.
  induction items as [|item rest IH]; intros images w; [done |].
  cbn [forEachM omap list_omap]. rewrite mbind'_run, Hf.
  destruct (request item) as [[pattern options]|]; [|apply IH].
  rewrite glob_into_run. cbn [lookups].
  destruct (getCachedGlobSync pattern options w) as [files w1]. apply IH.
Qed.

(** After [configResolved], collecting never throws: it is the run of the
    transform's requests, followed in a build by the accumulated assets. *)
Lemma collect_images_lookups p rc server w :
  collect_images (configResolved rc p) server w =
  let '(imgs, w') := lookups (requests p (ResolvedConfig.publicDir rc) server) [] w in
  (Returned (if server then imgs else imgs ++ assets p), w').
Proof.
  unfold collect_images, requests.
  change (dirs (configResolved rc p)) with (dirs p).
  change (publicDir (configResolved rc p)) with (publicDir p).
  change (assets (configResolved rc p)) with (assets p).
  destruct server.
  - destruct (dirs p) as [s|items].
    + rewrite mbind'_run, cwd_if_run, glob_into_run. cbn [lookups].
      by destruct (getCachedGlobSync s _ w) as [files w1].
    + apply forEachM_lookups, dev_item_run.
  - rewrite mbind'_run. destruct (dirs p) as [s|items].
    + rewrite prod_public_run.
      destruct (publicDir p && _); [|done].
      rewrite glob_into_run. cbn [lookups].
      by destruct (getCachedGlobSync s _ w) as [files w1].
    + rewrite (forEachM_lookups _ _ _ _ _ (prod_item_run p rc)).
      by destruct (lookups _ [] w) as [imgs w'].
Qed.

Lemma transformIndexHtml_run p rc server w :
  transformIndexHtml (configResolved rc p) server w =
  let '(imgs, w') := lookups (requests p (ResolvedConfig.publicDir rc) server) [] w in
  (Returned [ {| HtmlTag.tag := "script"; HtmlTag.injectTo := "head";
                 HtmlTag.children :=
                   render_script (configResolved rc p)
                     (new_Set (if server then imgs else imgs ++ assets p)) |} ],
   w').
Proof.
  unfold transformIndexHtml, resolve_images.
  rewrite !mbind'_run, collect_images_lookups.
  by destruct (lookups _ [] w) as [imgs w'].
Qed.

(** A build pass run a second time on the same instance and bundle resolves
    the same list, although [assets] has grown. *)
Lemma production_pass_twice p rc bundle w :
  let p0 := configResolved rc p in
  let '(p1, w1) := generateBundle p0 bundle w in
  ∃ tags w2,
    transformIndexHtml p1 false w1 = (Returned tags, w2) ∧
    let '(p2, w3) := generateBundle p1 bundle w2 in
    transformIndexHtml p2 false w3 = (Returned tags, w3).
Proof.
  cbn zeta. rewrite generateBundle_collects, collects_acc.
  change (source_patterns (configResolved rc p)) with (source_patterns p).
  change (assets (configResolved rc p)) with (assets p).
  destruct (collects_spec (source_patterns p) (Object_values bundle) w)
    as (added & w1 & -> & He1 & _ & Hrep1).
  change (set_assets (configResolved rc p) (assets p ++ added))
    with (configResolved rc (set_assets p (assets p ++ added))).
  rewrite transformIndexHtml_run.
  change (requests (set_assets p (assets p ++ added))) with (requests p).
  destruct (lookups_spec (requests p (ResolvedConfig.publicDir rc) false) w1)
    as (imgs & w2 & -> & He2 & Hrep2).
  eexists _, w2. split; [reflexivity |].
  rewrite generateBundle_collects, collects_acc.
  change (source_patterns (configResolved rc _)) with (source_patterns p).
  rewrite (Hrep1 w2 He2).
  change (set_assets (configResolved rc ?q) ?a) with (configResolved rc (set_assets q a)).
  rewrite transformIndexHtml_run.
  change (requests (set_assets _ _)) with (requests p).
  rewrite (Hrep2 w2) by done.
  cbn [assets set_assets configResolved set_config]. unfold render_script.
  cbn [attrs timeout batchSize].
  do 4 f_equal. rewrite !app_assoc. rewrite new_Set_absorb; [done |].
  intros x Hx. apply elem_of_app. by right.
Qed.

Lemma collectMatchedFiles_world pattern bundles options w :
  (collectMatchedFiles pattern bundles options w).2 =
  (getCachedGlobSync pattern options w).2.
Proof.
  unfold collectMatchedFiles. by destruct (getCachedGlobSync pattern options w).
Qed.

Lemma collects_coherent root patterns bundles assets0 w :
  coherent root w →
  coherent root (collects patterns bundles assets0 w).2 ∧
  fg_sync (collects patterns bundles assets0 w).2 = fg_sync w.
Proof.
  revert assets0 w. induction patterns as [|pattern rest IH]; intros assets0 w Hc.
  - done.
  - cbn [collects].
    pose proof (collectMatchedFiles_world pattern bundles no_options w) as Hw.
    destruct (collectMatchedFiles pattern bundles no_options w) as [matched w1].
    cbn [snd] in Hw.
    destruct (getCachedGlobSync_coherent root pattern no_options w Hc)
      as (w2 & Hg & Hc1 & Hfs1); [by left |].
    rewrite Hg in Hw. cbn [snd] in Hw. subst w1.
    destruct (IH (assets0 ++ matched) w2 Hc1) as [Hc' Hfs'].
    split; [done | congruence].
Qed.

(** One [generateBundle]: [assets] grows at its end by names that include
    the final name of every artifact matching a source pattern. *)
Lemma generateBundle_spec p bundle w :
  ∃ added w',
    generateBundle p bundle w = (set_assets p (assets p ++ added), w') ∧
    extends w w' ∧
    (∀ root, coherent root w → coherent root w') ∧
    (∀ pattern, pattern ∈ source_patterns p →
       ∃ files, globCache w' !! cache_key pattern no_options = Some files ∧
         ∀ b, b ∈ Object_values bundle →
              matchBundleWithFiles b (Some files) = true →
              Output.fileName b ∈ added).
Proof.
  rewrite generateBundle_collects, collects_acc.
  pose proof (λ root, collects_coherent root (source_patterns p)
                        (Object_values bundle) [] w) as Hco.
  destruct (collects_spec (source_patterns p) (Object_values bundle) w)
    as (added & w' & Hc & He & Hin & _).
  rewrite Hc in Hco |- *. exists added, w'.
  split_and!; [done | done | | done].
  intros root Hroot. by apply Hco.
Qed.

(** A build transform after [configResolved] returns, and its resolved list
    is the ordered set of the public-root expansions followed by [assets]. *)
Lemma prod_transform_includes_assets p rc w :
  ∃ tags w',
    transformIndexHtml (configResolved rc p) false w = (Returned tags, w') ∧
    NoDup (resolved_of tags) ∧
    ∀ x, x ∈ assets p → x ∈ resolved_of tags.
Proof.
  rewrite transformIndexHtml_run.
  destruct (lookups _ [] w) as [imgs w']. eexists _, w'.
  split_and!; [done | apply new_Set_NoDup |].
  intros x Hx. cbn. apply new_Set_elem, elem_of_app. by right.
Qed.

Lemma dev_request_in_family p root item req :
  dev_request p root item = Some req → in_family root req.2.
Proof.
  unfold dev_request. destruct (item_target p item) as [pattern flag].
  destruct flag; cbn [andb].
  - destruct (negb (str_truthy root)); [done |]. intros [= <-]. by right.
  - intros [= <-]. by left.
Qed.

Lemma prod_request_in_family p root item req :
  prod_request p root item = Some req → in_family root req.2.
Proof.
  unfold prod_request. destruct (item_target p item) as [pattern flag].
  destruct (flag && str_truthy root); [|done]. intros [= <-]. by right.
Qed.

(** Every expansion a transform requests uses no options or the public
    root of the resolved configuration. *)
Lemma requests_in_family p root server :
  Forall (λ req, in_family root req.2) (requests p root server).
Proof.
  unfold requests. destruct (dirs p) as [s|items].
  - destruct server.
    + apply Forall_singleton. destruct (publicDir p); [by right | by left].
    + destruct (publicDir p && str_truthy root);
        [apply Forall_singleton; by right | apply Forall_nil_2].
  - apply Forall_forall. intros req (item & Hin & Hreq)%list_elem_of_omap.
    destruct server;
      [by eapply dev_request_in_family | by eapply prod_request_in_family].
Qed.

Lemma dev_request_source p root item pattern :
  item_is_source p item pattern →
  dev_request p root item = Some (pattern, no_options).
Proof.
  unfold dev_request. destruct item as [s|d]; cbn; by intros [-> ->].
Qed.

Lemma source_target_requested p root pattern :
  source_target p pattern → (pattern, no_options) ∈ requests p root true.
Proof.
  unfold source_target, requests. destruct (dirs p) as [s|items].
  - intros [-> ->]. by left.
  - intros (item & Hin & Hs). apply list_elem_of_omap. exists item.
    split; [done | by apply dev_request_source].
Qed.

Lemma single_source_target_requests p root pattern :
  single_target p → source_target p pattern →
  requests p root true = [(pattern, no_options)].
Proof.
  unfold single_target, source_target, requests. destruct (dirs p) as [s|items].
  - by intros _ [-> ->].
  - intros Hlen (item & Hin & Hs).
    destruct items as [|x [|y rest]]; [done | | done].
    apply list_elem_of_singleton in Hin as ->. cbn.
    by rewrite (dev_request_source p root x pattern Hs).
Qed.

Lemma grows_ret {A} (a : A) : grows (ret a).
Proof. by intros w. Qed.

Lemma grows_throw {A} (e : Exn) : grows (throw (A := A) e).
Proof. by intros w. Qed.

Lemma grows_bind {A B} (m : M A) (k : A → M B) :
  grows m → (∀ a, grows (k a)) → grows (mbind' m k).
Proof.
  intros Hm Hk w. unfold mbind'. specialize (Hm w).
  destruct (m w) as [[a|e] w1]; [|done].
  etrans; [exact Hm | apply Hk].
Qed.

Lemma grows_glob_into images pattern options : grows (glob_into images pattern options).
Proof.
  intros w. rewrite glob_into_run.
  pose proof (getCachedGlobSync_extends pattern options w) as H.
  by destruct (getCachedGlobSync pattern options w).
Qed.

Lemma grows_config_publicDir p : grows (config_publicDir p).
Proof. unfold config_publicDir. destruct (config p); [apply grows_ret | apply grows_throw]. Qed.

Lemma grows_forEachM {A} (f : list string → A → M (list string)) items images :
  (∀ images item, grows (f images item)) → grows (forEachM f items images).
Proof.
  intros Hf. revert images. induction items as [|item rest IH]; intros images.
  - apply grows_ret.
  - cbn [forEachM]. apply grows_bind; [apply Hf | apply IH].
Qed.

Create HintDb grows.
#[local] Hint Resolve grows_ret grows_throw grows_glob_into grows_config_publicDir
  : grows.

Lemma grows_cwd_if p flag : grows (cwd_if p flag).
Proof.
  unfold cwd_if. destruct flag; [|auto with grows].
  apply grows_bind; auto with grows.
Qed.

Lemma grows_and_not_public_root p flag : grows (and_not_public_root p flag).
Proof.
  unfold and_not_public_root. destruct flag; [|auto with grows].
  apply grows_bind; auto with grows.
Qed.

Lemma grows_prod_public p images pattern flag :
  grows (prod_public p images pattern flag).
Proof.
  unfold prod_public, and_public_root. apply grows_bind.
  - destruct flag; [|auto with grows]. apply grows_bind; auto with grows.
  - intros [|]; [|auto with grows]. apply grows_bind; auto with grows.
Qed.

Lemma grows_dev_item p images item : grows (dev_item p images item).
Proof.
  unfold dev_item. destruct item as [s|d];
    (apply grows_bind; [apply grows_and_not_public_root |]);
    (intros [|]; [auto with grows |]);
    (apply grows_bind; [apply grows_cwd_if | auto with grows]).
Qed.

(** A transform only extends the cache, whether it returns or throws. *)
Lemma grows_transformIndexHtml p server : grows (transformIndexHtml p server).
Proof.
  unfold transformIndexHtml, resolve_images, collect_images.
  apply grows_bind; [|auto with grows].
  apply grows_bind; [|auto with grows].
  destruct server.
  - destruct (dirs p) as [s|items].
    + apply grows_bind; [apply grows_cwd_if | auto with grows].
    + apply grows_forEachM, grows_dev_item.
  - apply grows_bind; [|auto with grows].
    destruct (dirs p) as [s|items].
    + apply grows_prod_public.
    + apply grows_forEachM. intros images [s|d]; apply grows_prod_public.
Qed.

(** No hook removes or replaces a cache entry. *)
Lemma run_hook_extends p w h : extends w (run_hook (p, w) h).2.
Proof.
  destruct h as [rc|bundle|server]; cbn [run_hook snd].
  - done.
  - by destruct (generateBundle_spec p bundle w) as (added & w' & -> & He & _).
  - apply grows_transformIndexHtml.
Qed.

Lemma elem_of_concat {A} (x : A) (ls : list (list A)) :
  x ∈ concat ls ↔ ∃ l, x ∈ l ∧ l ∈ ls.
Proof.
  induction ls as [|l ls IH]; cbn [concat].
  - split; [by intros ?%elem_of_nil | by intros (l & _ & ?%elem_of_nil)].
  - rewrite elem_of_app, IH. split.
    + intros [H | (l' & H & Hin)]; [exists l; split; [done | by left] |].
      exists l'. split; [done | by right].
    + intros (l' & H & [-> | Hin]%elem_of_cons); [by left |].
      right. by exists l'.
Qed.

(** One run of [collects] adds, target by target, the names of the
    artifacts that match the target's cached expansion, and nothing else. *)
Lemma collects_exact patterns bundles w :
  ∃ w',
    collects patterns bundles [] w =
      (concat ((λ q, matched_names w' q bundles) <$> patterns), w') ∧
    extends w w'.
Proof.
  revert w. induction patterns as [|pattern rest IH]; intros w.
  - by exists w.
  - cbn [collects].
    destruct (collectMatchedFiles_spec pattern bundles no_options w)
      as (files & w1 & -> & Hg & Hl & He1).
    destruct (IH w1) as (w' & Hc & He2).
    rewrite collects_acc, Hc. exists w'. split; [|by etrans].
    cbn [fmap list_fmap concat app]. do 2 f_equal.
    unfold matched_names.
    by rewrite (extends_lookup w1 w' _ files He2 Hl).
Qed.

(** A build transform after [configResolved] returns the ordered set of
    the public-root expansions followed by [assets]. *)
Lemma prod_transform_resolved p rc w :
  ∃ tags w',
    transformIndexHtml (configResolved rc p) false w = (Returned tags, w') ∧
    resolved_of tags = new_Set (public_images p rc w ++ assets p).
Proof.
  rewrite transformIndexHtml_run. unfold public_images.
  destruct (lookups _ [] w) as [imgs w']. by eexists _, w'.
Qed.

(** What a build does for a target whose effective [fromPublicRoot] is
    false: the pattern's cached expansion decides; [assets] grows by the
    final names of the artifacts that match the cached expansion of one of
    these targets, and by nothing else; and the build transform resolves
    the ordered set of the public-root expansions and [assets]. *)
Lemma source_target_pass p bundle w pattern :
  source_target p pattern →
  ∃ p' w' files,
    generateBundle p bundle w = (p', w') ∧
    globCache w' !! cache_key pattern no_options = Some files ∧
    (∀ root, coherent root w → files = fg_sync w pattern no_options) ∧
    assets p' =
      assets p ++
      concat ((λ q, matched_names w' q (Object_values bundle)) <$> source_patterns p) ∧
    (∀ rc w0, ∃ tags w1,
       transformIndexHtml (configResolved rc p') false w0 = (Returned tags, w1) ∧
       resolved_of tags = new_Set (public_images p' rc w0 ++ assets p')) ∧
    ∀ b, b ∈ Object_values bundle →
         matchBundleWithFiles b (Some files) = true →
         Output.fileName b ∈ assets p' ∧
         ∀ rc w0, ∃ tags w1,
           transformIndexHtml (configResolved rc p') false w0 = (Returned tags, w1) ∧
           Output.fileName b ∈ resolved_of tags.
Proof.
  intros Ht.
  pose proof (λ root, collects_coherent root (source_patterns p)
                        (Object_values bundle) [] w) as Hco.
  rewrite generateBundle_collects, collects_acc.
  destruct (collects_spec (source_patterns p) (Object_values bundle) w)
    as (added0 & w0 & Hc0 & _ & Hin & _).
  destruct (collects_exact (source_patterns p) (Object_values bundle) w)
    as (w' & Hc & He).
  rewrite Hc in Hc0. injection Hc0 as _ <-.
  rewrite Hc in Hco |- *. cbn [snd] in Hco.
  apply source_target_patterns in Ht.
  destruct (Hin pattern Ht) as (fs & Hl & _).
  set (added := concat _).
  exists (set_assets p (assets p ++ added)), w', fs.
  assert (∀ b, b ∈ Object_values bundle →
               matchBundleWithFiles b (Some fs) = true →
               Output.fileName b ∈ added) as Hall.
  { intros b Hb Hm. apply elem_of_concat.
    exists (matched_names w' pattern (Object_values bundle)). split.
    - unfold matched_names. apply list_elem_of_fmap. exists b. split; [done |].
      apply list_elem_of_filter. by rewrite Hl.
    - apply list_elem_of_fmap. by exists pattern. }
  split_and!; [done | done | | done | |].
  - intros root Hroot.
    destruct (Hco root Hroot) as [Hco' Hfs].
    rewrite (Hco' pattern no_options fs) by (done || by left).
    by rewrite Hfs.
  - intros rc w0. apply prod_transform_resolved.
  - intros b Hb Hm.
    assert (Output.fileName b ∈ assets (set_assets p (assets p ++ added))) as Ha.
    { cbn. apply elem_of_app. right. by apply Hall. }
    split; [done |]. intros rc w0.
    destruct (prod_transform_includes_assets (set_assets p (assets p ++ added)) rc w0)
      as (tags & w1 & Hrun & _ & Hincl).
    exists tags, w1. split; [done | by apply Hincl].
Qed.

(** A name in what the targets contribute comes from an artifact that
    matches the cached expansion of one of them. *)
Lemma contributed_inv p w' (bundles : list Output.t) (name : string) :
  name ∈ concat ((λ q, matched_names w' q bundles) <$> source_patterns p) →
  ∃ q b, source_target p q ∧ b ∈ bundles ∧ Output.fileName b = name ∧
         matchBundleWithFiles b (globCache w' !! cache_key q no_options) = true.
Proof.
  intros (l & Hname & (q & -> & Hq)%list_elem_of_fmap)%elem_of_concat.
  unfold matched_names in Hname.
  apply list_elem_of_fmap in Hname as (b & -> & (Hm & Hb)%list_elem_of_filter).
  exists q, b. split_and!; [by apply source_target_patterns | done | done | done].
Qed.
End hooks.

(** ** The scheduler as a transition system *)

Module SchedulerFacts.
Import Scheduler.

(** What holds between two tasks: every item of the script is finished, in
    progress or still queued, exactly once; a worker has returned only if
    the queue is empty; and no worker was left by a rejection. *)
Record Inv (all : list string) (st : State) : Prop := MkInv {
  inv_items : finished st ++ in_progress (workers st) ++ images st ≡ₚ all;
  inv_exited : Exited ∈ workers st → images st = [];
  inv_caught : Crashed ∉ workers st
}.

Lemma in_progress_app ws1 ws2 :
  in_progress (ws1 ++ ws2) = in_progress ws1 ++ in_progress ws2.
Proof. unfold in_progress. by rewrite List.map_app, List.concat_app. Qed.




Lemma loop_spec st :
  ∃ wk st',
    loop st = (wk, st') ∧
    item_of wk ++ images st' = images st ∧
    workers st' = workers st ∧ overdue st' = overdue st ∧
    finished st' = finished st ∧ console st' = console st ∧
    (wk = Exited → images st' = []) ∧
    (images st = [] → wk = Exited) ∧
    wk ≠ Crashed.
Proof.
  unfold loop, loadImage. destruct (images st) as [|src rest] eqn:Hq.
  - exists Exited, st. by rewrite Hq.
  - unfold str_truthy. destruct (String.eqb_spec src "") as [->|Hne]; cbn.
    + eexists _, _. split; [reflexivity |]. by split_and!.
    + eexists _, _. split; [reflexivity |]. by split_and!.
Qed.



(** The [catch] handler of [loadImages] takes every rejection. *)
Lemma settled_fulfilled i src st :
  settled i src Fulfilled st = resume i (finish st src).
Proof. reflexivity. Qed.

Lemma settled_rejected i src st :
  settled i src Rejected st = resume i (finish (log st ErrorCaught) src).
Proof. reflexivity. Qed.



Lemma spawn_inv all n st :
  Inv all st →
  Inv all (spawn n st) ∧
  length (workers (spawn n st)) = (length (workers st) + n)%nat.
Proof.
  revert st. induction n as [|n IH]; intros st HI.
  - cbn. split; [done | lia].
  - cbn [spawn].
    destruct (loop_spec st)
      as (wk & st' & -> & Hq & Hw & Ho & Hf & Hc & He & Hemp & Hnc).
    destruct HI as [Hitems Hexit Hcaught].
    destruct (IH (set_workers st' (workers st' ++ [wk]))) as [HI' Hlen].
    + split; cbn [workers images finished set_workers].
      * rewrite Hw, Hf, in_progress_app. rewrite <- Hitems, <- Hq.
        unfold in_progress at 2. cbn. rewrite app_nil_r.
        by rewrite <- !app_assoc.
      * rewrite Hw. intros [Hin | Hin%list_elem_of_singleton]%elem_of_app.
        -- specialize (Hexit Hin). rewrite <- Hq in Hexit.
           by apply app_eq_nil in Hexit as [_ ?].
        -- apply He. by symmetry.
      * rewrite Hw. intros [Hin | Hin%list_elem_of_singleton]%elem_of_app;
          [by apply Hcaught | by apply Hnc].
    + split; [done |]. rewrite Hlen. cbn. rewrite length_app, Hw. cbn. lia.
Qed.


Lemma start_range_error script :
  2 ^ 32 ≤ ToLength (Script.batchSize script) → start script = RangeError.
Proof.
  intros H. unfold start. cbn zeta.
  destruct (Z.leb_spec (2 ^ 32) (ToLength (Script.batchSize script))); [done | lia].
Qed.

Lemma start_inv script st0 :
  start script = Running st0 →
  Inv (Script.images script) st0 ∧
  length (workers st0) = Z.to_nat (ToLength (Script.batchSize script)).
Proof.
  unfold start. cbn zeta.
  destruct (2 ^ 32 <=? ToLength (Script.batchSize script)); [done |].
  intros [= <-].
  edestruct (spawn_inv (Script.images script)
               (Z.to_nat (ToLength (Script.batchSize script))))
    as [HI Hlen]; [|split; [exact HI | by rewrite Hlen]].
  split; cbn; [done | by intros ?%elem_of_nil | by intros ?%elem_of_nil].
Qed.














End SchedulerFacts.

(** * The claims of the specification *)

(** ** C1: exact matching in a build *)

(** C1.  In a build, for a target whose effective [fromPublicRoot] is false
    and an emitted artifact that exposes its source path
    ([originalFileName] is a non-empty string), the artifact matches the
    target exactly when that path is a member of the pattern's expansion
    as [getCachedGlobSync] delivers it (the file system's own expansion when
    the cache is coherent), and the target contributes the artifact's final
    name [fileName] when it matches and nothing when it does not.
    [assets] grows by the final names of the artifacts that match one of
    these targets, and by nothing else: the artifact's final name is in
    [assets] after the pass exactly when it was there before, or the path is
    in the expansion, or another target or artifact contributes the same
    name.  The build transform resolves the ordered set of the public-root
    expansions and [assets]: the name is resolved exactly when it is in
    [assets] or among the public-root expansions. *)
Theorem exact_match_contributes_final_name
    (p : Plugin) (bundle : list (string * Output.t)) (w : World)
    (pattern : string) (b : Output.t) (original : string) :
  source_target p pattern →
  b ∈ Object_values bundle →
  Output.originalFileName b = Some original →
  original ≠ "" →
  ∃ p' w' files,
    generateBundle p bundle w = (p', w') ∧
    globCache w' !! cache_key pattern no_options = Some files ∧
    (∀ root, coherent root w → files = fg_sync w pattern no_options) ∧
    (matchBundleWithFiles b (Some files) = true ↔ original ∈ files) ∧
    collectMatchedFiles pattern [b] no_options w' =
      (if bool_decide (original ∈ files) then [Output.fileName b] else [], w') ∧
    assets p' =
      assets p ++
      concat ((λ q, matched_names w' q (Object_values bundle)) <$> source_patterns p) ∧
    (Output.fileName b ∈ assets p' ↔
       Output.fileName b ∈ assets p ∨ original ∈ files ∨
       ∃ q b', (q, b') ≠ (pattern, b) ∧ source_target p q ∧
               b' ∈ Object_values bundle ∧
               Output.fileName b' = Output.fileName b ∧
               matchBundleWithFiles b' (globCache w' !! cache_key q no_options)
               = true) ∧
    (∀ rc w0, ∃ tags w1,
       transformIndexHtml (configResolved rc p') false w0 = (Returned tags, w1) ∧
       resolved_of tags = new_Set (public_images p' rc w0 ++ assets p') ∧
       (Output.fileName b ∈ resolved_of tags ↔
          Output.fileName b ∈ public_images p' rc w0 ∨
          Output.fileName b ∈ assets p')).
Proof.
  intros Ht Hb Ho Hne.
  destruct (source_target_pass p bundle w pattern Ht)
    as (p' & w' & files & Hg & Hl & Hco & Hassets & Hres & Hall).
  pose proof (match_exact b files original Ho Hne) as Hiff.
  exists p', w', files.
  split_and!; [done | done | done | done | | done | |].
  - unfold collectMatchedFiles.
    rewrite (getCachedGlobSync_hit pattern no_options w' files Hl). cbn [foldl].
    case_bool_decide as Hmem.
    + by rewrite (proj2 Hiff Hmem).
    + destruct (matchBundleWithFiles b (Some files)) eqn:Hm; [|done].
      by destruct Hmem; apply Hiff.
  - rewrite Hassets, elem_of_app. split.
    + intros [Hold | Hnew]; [by left |].
      apply contributed_inv in Hnew as (q & b' & Hq & Hb' & Hname & Hm).
      destruct (decide (original ∈ files)) as [Hmem | Hnot]; [by right; left |].
      right; right. exists q, b'. split_and!; try done.
      intros [= -> ->]. rewrite Hl in Hm. by apply Hiff in Hm.
    + intros [Hold | [Hmem | (q & b' & _ & Hq & Hb' & Hname & Hm)]]; [by left | |].
      * apply elem_of_app. rewrite <- Hassets. apply Hall; [done | by apply Hiff].
      * right. rewrite <- Hname. apply elem_of_concat.
        exists (matched_names w' q (Object_values bundle)). split.
        -- unfold matched_names. apply list_elem_of_fmap. exists b'.
           split; [done |]. by apply list_elem_of_filter.
        -- apply list_elem_of_fmap. exists q.
           split; [done | by apply source_target_patterns].
  - intros rc w0. destruct (Hres rc w0) as (tags & w1 & Hrun & Heq).
    exists tags, w1. split_and!; [done | done |].
    by rewrite Heq, new_Set_elem, elem_of_app.
Qed.

Lemma exact_match_contributes_final_name_witness :
  (let p := demo_plugin in
   let bundle := [("assets/a.1a2b.png", demo_exact);
                  ("assets/c.3c4d.png", demo_elsewhere)] in
   let w := demo_world in
   let pattern := "src/assets/*.png" in
   let b := demo_exact in
   let original := "src/assets/a.png" in
   source_target p pattern ∧
   b ∈ Object_values bundle ∧
   Output.originalFileName b = Some original ∧
   original ≠ "" ∧
   ∃ p' w' files,
     generateBundle p bundle w = (p', w') ∧
     globCache w' !! cache_key pattern no_options = Some files ∧
     (∀ root, coherent root w → files = fg_sync w pattern no_options) ∧
     (matchBundleWithFiles b (Some files) = true ↔ original ∈ files) ∧
     collectMatchedFiles pattern [b] no_options w' =
       (if bool_decide (original ∈ files) then [Output.fileName b] else [], w') ∧
     assets p' =
       assets p ++
       concat ((λ q, matched_names w' q (Object_values bundle)) <$> source_patterns p) ∧
     (Output.fileName b ∈ assets p' ↔
        Output.fileName b ∈ assets p ∨ original ∈ files ∨
        ∃ q b', (q, b') ≠ (pattern, b) ∧ source_target p q ∧
                b' ∈ Object_values bundle ∧
                Output.fileName b' = Output.fileName b ∧
                matchBundleWithFiles b' (globCache w' !! cache_key q no_options)
                = true) ∧
     (∀ rc w0, ∃ tags w1,
        transformIndexHtml (configResolved rc p') false w0 = (Returned tags, w1) ∧
        resolved_of tags = new_Set (public_images p' rc w0 ++ assets p') ∧
        (Output.fileName b ∈ resolved_of tags ↔
           Output.fileName b ∈ public_images p' rc w0 ∨
           Output.fileName b ∈ assets p'))) ∧
  (let p := demo_plugin in
   let bundle := [("assets/a.1a2b.png", demo_exact);
                  ("assets/c.3c4d.png", demo_elsewhere)] in
   let w := demo_world in
   let pattern := "src/assets/*.png" in
   let b := demo_elsewhere in
   let original := "src/other/c.png" in
   source_target p pattern ∧
   b ∈ Object_values bundle ∧
   Output.originalFileName b = Some original ∧
   original ≠ "" ∧
   ∃ p' w' files,
     generateBundle p bundle w = (p', w') ∧
     globCache w' !! cache_key pattern no_options = Some files ∧
     (∀ root, coherent root w → files = fg_sync w pattern no_options) ∧
     (matchBundleWithFiles b (Some files) = true ↔ original ∈ files) ∧
     collectMatchedFiles pattern [b] no_options w' =
       (if bool_decide (original ∈ files) then [Output.fileName b] else [], w') ∧
     assets p' =
       assets p ++
       concat ((λ q, matched_names w' q (Object_values bundle)) <$> source_patterns p) ∧
     (Output.fileName b ∈ assets p' ↔
        Output.fileName b ∈ assets p ∨ original ∈ files ∨
        ∃ q b', (q, b') ≠ (pattern, b) ∧ source_target p q ∧
                b' ∈ Object_values bundle ∧
                Output.fileName b' = Output.fileName b ∧
                matchBundleWithFiles b' (globCache w' !! cache_key q no_options)
                = true) ∧
     (∀ rc w0, ∃ tags w1,
        transformIndexHtml (configResolved rc p') false w0 = (Returned tags, w1) ∧
        resolved_of tags = new_Set (public_images p' rc w0 ++ assets p') ∧
        (Output.fileName b ∈ resolved_of tags ↔
           Output.fileName b ∈ public_images p' rc w0 ∨
           Output.fileName b ∈ assets p'))).
Proof.
  assert (source_target demo_plugin "src/assets/*.png") as H1 by (by split).
  assert (demo_exact ∈ Object_values [("assets/a.1a2b.png", demo_exact);
                                      ("assets/c.3c4d.png", demo_elsewhere)])
    as H2 by (by left).
  assert (demo_elsewhere ∈ Object_values [("assets/a.1a2b.png", demo_exact);
                                          ("assets/c.3c4d.png", demo_elsewhere)])
    as H2' by (right; left).
  assert ("src/assets/a.png" ≠ "") as H4 by done.
  assert ("src/other/c.png" ≠ "") as H4' by done.
  split; cbn zeta.
  - split_and!; [exact H1 | exact H2 | reflexivity | exact H4 |].
    exact (exact_match_contributes_final_name demo_plugin
             [("assets/a.1a2b.png", demo_exact); ("assets/c.3c4d.png", demo_elsewhere)]
             demo_world "src/assets/*.png"
             demo_exact "src/assets/a.png" H1 H2 eq_refl H4).
  - split_and!; [exact H1 | exact H2' | reflexivity | exact H4' |].
    exact (exact_match_contributes_final_name demo_plugin
             [("assets/a.1a2b.png", demo_exact); ("assets/c.3c4d.png", demo_elsewhere)]
             demo_world "src/assets/*.png"
             demo_elsewhere "src/other/c.png" H1 H2' eq_refl H4').
Defined.

(** Scenario B evaluated: the build resolves the final name alone, also
    when the bundle holds an artifact whose source path is outside the
    expansion. *)
Example scenario_B :
  let '(p', w') := generateBundle demo_plugin [("k", demo_exact)] demo_world in
  match (transformIndexHtml (configResolved demo_config p') false w').1 with
  | Returned tags => resolved_of tags = ["assets/a.1a2b.png"]
  | Threw _ => False
  end.
Proof. vm_compute. reflexivity. Qed.

Example scenario_B_leaves_out_other_sources :
  let bundle := [("assets/a.1a2b.png", demo_exact);
                 ("assets/c.3c4d.png", demo_elsewhere)] in
  let '(p', w') := generateBundle demo_plugin bundle demo_world in
  assets p' = ["assets/a.1a2b.png"] ∧
  match (transformIndexHtml (configResolved demo_config p') false w').1 with
  | Returned tags => resolved_of tags = ["assets/a.1a2b.png"]
  | Threw _ => False
  end.
Proof. vm_compute. split; reflexivity. Qed.

(** ** C2: fallback matching in a build *)

(** C2, as stated, fails under either reading of "expanded file names".
    Read as the expanded paths: the artifact of Scenario C, named [a.png],
    matches the expansion of [src/assets/*.png], although no expanded path
    is a substring of [a.png].  Read as the last path segments: an artifact
    named [xa.png], emitted for a differently named file, has the expanded
    file name [a.png] as a substring of its symbolic name, and the code does
    not match it: the build contributes nothing for it. *)
Lemma fallback_is_not_file_name_in_artifact :
  let files := ["src/assets/a.png"; "src/assets/b.png"] in
  fg_sync demo_world "src/assets/*.png" no_options = files ∧
  (matchBundleWithFiles demo_fallback (Some files) = true ∧
   paths_in_artifact demo_fallback files = false) ∧
  (names_in_artifact demo_longer_name files = true ∧
   matchBundleWithFiles demo_longer_name (Some files) = false ∧
   assets (generateBundle demo_plugin [("other/xa.5e6f.png", demo_longer_name)]
             demo_world).1 = []).
Proof. by vm_compute. Qed.

(** C2, amended.  In a build, for a target whose effective [fromPublicRoot]
    is false and an emitted artifact that does not expose a source path and
    has a symbolic name: the artifact matches when its symbolic name is the
    file name (the last segment) of a path of the pattern's expansion, and
    it matches only when its symbolic name occurs in a path of the
    expansion.  [assets] grows by the final names of the matching artifacts
    and by nothing else: the artifact's final name is in [assets] after the
    pass exactly when it was there before, or the artifact matches, or
    another target or artifact contributes the same name; and it is
    resolved exactly when it is in [assets] or among the public-root
    expansions.  Every other artifact without a source path that bears the
    same symbolic name matches as well, whatever directory it came from. *)
Theorem fallback_matches_same_named_files
    (p : Plugin) (bundle : list (string * Output.t)) (w : World)
    (pattern : string) (b : Output.t) (name : string) :
  source_target p pattern →
  b ∈ Object_values bundle →
  ¬ exposes_source b →
  Output.name b = Some name →
  ∃ p' w' files,
    generateBundle p bundle w = (p', w') ∧
    globCache w' !! cache_key pattern no_options = Some files ∧
    (∀ root, coherent root w → files = fg_sync w pattern no_options) ∧
    ((∃ file, file ∈ files ∧ basename file = name) →
       matchBundleWithFiles b (Some files) = true) ∧
    (matchBundleWithFiles b (Some files) = true →
       ∃ file, file ∈ files ∧ includes file name = true) ∧
    collectMatchedFiles pattern [b] no_options w' =
      (if matchBundleWithFiles b (Some files) then [Output.fileName b] else [], w') ∧
    assets p' =
      assets p ++
      concat ((λ q, matched_names w' q (Object_values bundle)) <$> source_patterns p) ∧
    (Output.fileName b ∈ assets p' ↔
       Output.fileName b ∈ assets p ∨
       matchBundleWithFiles b (Some files) = true ∨
       ∃ q b', (q, b') ≠ (pattern, b) ∧ source_target p q ∧
               b' ∈ Object_values bundle ∧
               Output.fileName b' = Output.fileName b ∧
               matchBundleWithFiles b' (globCache w' !! cache_key q no_options)
               = true) ∧
    (∀ rc w0, ∃ tags w1,
       transformIndexHtml (configResolved rc p') false w0 = (Returned tags, w1) ∧
       resolved_of tags = new_Set (public_images p' rc w0 ++ assets p') ∧
       (Output.fileName b ∈ resolved_of tags ↔
          Output.fileName b ∈ public_images p' rc w0 ∨
          Output.fileName b ∈ assets p')) ∧
    (∀ b', ¬ exposes_source b' → Output.name b' = Some name →
       matchBundleWithFiles b' (Some files) = matchBundleWithFiles b (Some files)).
Proof.
  intros Ht Hb Hno Hname.
  destruct (source_target_pass p bundle w pattern Ht)
    as (p' & w' & files & Hg & Hl & Hco & Hassets & Hres & Hall).
  apply not_true_is_false in Hno.
  pose proof (match_fallback b files Hno) as Hiff.
  rewrite Hname in Hiff. change (search_string (Some name)) with name in Hiff.
  exists p', w', files.
  split_and!; [done | done | done | | by apply Hiff | | done | | |].
  - intros (file & Hin & <-). apply Hiff. exists file. split; [done |].
    apply includes_basename.
  - unfold collectMatchedFiles.
    rewrite (getCachedGlobSync_hit pattern no_options w' files Hl). cbn [foldl].
    by destruct (matchBundleWithFiles b (Some files)).
  - rewrite Hassets, elem_of_app. split.
    + intros [Hold | Hnew]; [by left |].
      apply contributed_inv in Hnew as (q & b' & Hq & Hb' & Hfn & Hm').
      destruct (matchBundleWithFiles b (Some files)) eqn:Hm; [by right; left |].
      right; right. exists q, b'. split_and!; try done.
      intros [= -> ->]. rewrite Hl in Hm'. congruence.
    + intros [Hold | [Hm | (q & b' & _ & Hq & Hb' & Hfn & Hm)]]; [by left | |].
      * apply elem_of_app. rewrite <- Hassets. by apply Hall.
      * right. rewrite <- Hfn. apply elem_of_concat.
        exists (matched_names w' q (Object_values bundle)). split.
        -- unfold matched_names. apply list_elem_of_fmap. exists b'.
           split; [done |]. by apply list_elem_of_filter.
        -- apply list_elem_of_fmap. exists q.
           split; [done | by apply source_target_patterns].
  - intros rc w0. destruct (Hres rc w0) as (tags & w1 & Hrun & Heq).
    exists tags, w1. split_and!; [done | done |].
    by rewrite Heq, new_Set_elem, elem_of_app.
  - intros b' Hno' Hname'. apply not_true_is_false in Hno'.
    unfold matchBundleWithFiles. by rewrite Hno, Hno', Hname, Hname'.
Qed.

Lemma fallback_matches_same_named_files_witness :
  (let p := demo_plugin in
   let bundle := [("assets/a.1a2b.png", demo_fallback);
                  ("other/a.9xZ.png", demo_unrelated);
                  ("other/xa.5e6f.png", demo_longer_name)] in
   let w := demo_world in
   let pattern := "src/assets/*.png" in
   let b := demo_unrelated in
   let name := "a.png" in
   source_target p pattern ∧
   b ∈ Object_values bundle ∧
   ¬ exposes_source b ∧
   Output.name b = Some name ∧
   ∃ p' w' files,
     generateBundle p bundle w = (p', w') ∧
     globCache w' !! cache_key pattern no_options = Some files ∧
     (∀ root, coherent root w → files = fg_sync w pattern no_options) ∧
     ((∃ file, file ∈ files ∧ basename file = name) →
        matchBundleWithFiles b (Some files) = true) ∧
     (matchBundleWithFiles b (Some files) = true →
        ∃ file, file ∈ files ∧ includes file name = true) ∧
     collectMatchedFiles pattern [b] no_options w' =
       (if matchBundleWithFiles b (Some files) then [Output.fileName b] else [], w') ∧
     assets p' =
       assets p ++
       concat ((λ q, matched_names w' q (Object_values bundle)) <$> source_patterns p) ∧
     (Output.fileName b ∈ assets p' ↔
        Output.fileName b ∈ assets p ∨
        matchBundleWithFiles b (Some files) = true ∨
        ∃ q b', (q, b') ≠ (pattern, b) ∧ source_target p q ∧
                b' ∈ Object_values bundle ∧
                Output.fileName b' = Output.fileName b ∧
                matchBundleWithFiles b' (globCache w' !! cache_key q no_options)
                = true) ∧
     (∀ rc w0, ∃ tags w1,
        transformIndexHtml (configResolved rc p') false w0 = (Returned tags, w1) ∧
        resolved_of tags = new_Set (public_images p' rc w0 ++ assets p') ∧
        (Output.fileName b ∈ resolved_of tags ↔
           Output.fileName b ∈ public_images p' rc w0 ∨
           Output.fileName b ∈ assets p')) ∧
     (∀ b', ¬ exposes_source b' → Output.name b' = Some name →
        matchBundleWithFiles b' (Some files) = matchBundleWithFiles b (Some files))) ∧
  (let p := demo_plugin in
   let bundle := [("assets/a.1a2b.png", demo_fallback);
                  ("other/a.9xZ.png", demo_unrelated);
                  ("other/xa.5e6f.png", demo_longer_name)] in
   let w := demo_world in
   let pattern := "src/assets/*.png" in
   let b := demo_longer_name in
   let name := "xa.png" in
   source_target p pattern ∧
   b ∈ Object_values bundle ∧
   ¬ exposes_source b ∧
   Output.name b = Some name ∧
   ∃ p' w' files,
     generateBundle p bundle w = (p', w') ∧
     globCache w' !! cache_key pattern no_options = Some files ∧
     (∀ root, coherent root w → files = fg_sync w pattern no_options) ∧
     ((∃ file, file ∈ files ∧ basename file = name) →
        matchBundleWithFiles b (Some files) = true) ∧
     (matchBundleWithFiles b (Some files) = true →
        ∃ file, file ∈ files ∧ includes file name = true) ∧
     collectMatchedFiles pattern [b] no_options w' =
       (if matchBundleWithFiles b (Some files) then [Output.fileName b] else [], w') ∧
     assets p' =
       assets p ++
       concat ((λ q, matched_names w' q (Object_values bundle)) <$> source_patterns p) ∧
     (Output.fileName b ∈ assets p' ↔
        Output.fileName b ∈ assets p ∨
        matchBundleWithFiles b (Some files) = true ∨
        ∃ q b', (q, b') ≠ (pattern, b) ∧ source_target p q ∧
                b' ∈ Object_values bundle ∧
                Output.fileName b' = Output.fileName b ∧
                matchBundleWithFiles b' (globCache w' !! cache_key q no_options)
                = true) ∧
     (∀ rc w0, ∃ tags w1,
        transformIndexHtml (configResolved rc p') false w0 = (Returned tags, w1) ∧
        resolved_of tags = new_Set (public_images p' rc w0 ++ assets p') ∧
        (Output.fileName b ∈ resolved_of tags ↔
           Output.fileName b ∈ public_images p' rc w0 ∨
           Output.fileName b ∈ assets p')) ∧
     (∀ b', ¬ exposes_source b' → Output.name b' = Some name →
        matchBundleWithFiles b' (Some files) = matchBundleWithFiles b (Some files))).
Proof.
  assert (source_target demo_plugin "src/assets/*.png") as H1 by (by split).
  assert (demo_unrelated ∈ Object_values [("assets/a.1a2b.png", demo_fallback);
                                          ("other/a.9xZ.png", demo_unrelated);
                                          ("other/xa.5e6f.png", demo_longer_name)])
    as H2 by (right; left).
  assert (demo_longer_name ∈ Object_values [("assets/a.1a2b.png", demo_fallback);
                                            ("other/a.9xZ.png", demo_unrelated);
                                            ("other/xa.5e6f.png", demo_longer_name)])
    as H2' by (right; right; left).
  assert (¬ exposes_source demo_unrelated) as H3 by (by intros ?).
  assert (¬ exposes_source demo_longer_name) as H3' by (by intros ?).
  split; cbn zeta.
  - split_and!; [exact H1 | exact H2 | exact H3 | reflexivity |].
    exact (fallback_matches_same_named_files demo_plugin _ demo_world
             "src/assets/*.png" demo_unrelated "a.png" H1 H2 H3 eq_refl).
  - split_and!; [exact H1 | exact H2' | exact H3' | reflexivity |].
    exact (fallback_matches_same_named_files demo_plugin _ demo_world
             "src/assets/*.png" demo_longer_name "xa.png" H1 H2' H3' eq_refl).
Defined.

(** Scenario C evaluated: without source paths the build also resolves the
    same-named artifact of the unrelated directory, and not the artifact of
    the differently named file. *)
Example scenario_C :
  let bundle := [("assets/a.1a2b.png", demo_fallback);
                 ("other/a.9xZ.png", demo_unrelated)] in
  let '(p', w') := generateBundle demo_plugin bundle demo_world in
  match (transformIndexHtml (configResolved demo_config p') false w').1 with
  | Returned tags => resolved_of tags = ["assets/a.1a2b.png"; "other/a.9xZ.png"]
  | Threw _ => False
  end.
Proof. vm_compute. reflexivity. Qed.

Example scenario_C_leaves_out_other_names :
  let bundle := [("assets/a.1a2b.png", demo_fallback);
                 ("other/a.9xZ.png", demo_unrelated);
                 ("other/xa.5e6f.png", demo_longer_name)] in
  assets (generateBundle demo_plugin bundle demo_world).1
  = ["assets/a.1a2b.png"; "other/a.9xZ.png"].
Proof. vm_compute. reflexivity. Qed.

(** Beyond the same-named resources that the source comment on [dirs]
    speaks of, the substring test also matches an artifact whose symbolic
    name is the end of a longer file name, and an artifact without a
    symbolic name through the text [undefined]. *)
Example fallback_also_matches_inside_longer_names :
  matchBundleWithFiles demo_unrelated (Some ["src/assets/xa.png"]) = true ∧
  matchBundleWithFiles
    {| Output.fileName := "assets/u.0000.png"; Output.name := None;
       Output.originalFileName := None |}
    (Some ["src/assets/undefined.png"]) = true.
Proof. by vm_compute. Qed.

(** ** C3: the resolved list is an ordered set, and resolving is repeatable *)

(** C3.  For every configuration, and in both modes, a transform on a
    configured instance returns; the list it resolves is the insertion-
    ordered set of the collected URLs: it has no duplicates, it has exactly
    the collected URLs as members, and whenever [x] precedes [y] in it, [x]
    is first met among the collected URLs before any occurrence of [y].
    A second transform in the world the first one left (or any world that
    only extends its cache) resolves the same list, and so does a second
    build pass (bundle finalize, then transform) over the same bundle. *)
Theorem resolved_list_is_ordered_set
    (p : Plugin) (rc : ResolvedConfig.t) (server : bool) (w : World) :
  ∃ collected tags w',
    collect_images (configResolved rc p) server w = (Returned collected, w') ∧
    transformIndexHtml (configResolved rc p) server w = (Returned tags, w') ∧
    resolved_of tags = new_Set collected ∧
    NoDup (resolved_of tags) ∧
    (∀ x, x ∈ resolved_of tags ↔ x ∈ collected) ∧
    (∀ i j x y,
       resolved_of tags !! i = Some x → resolved_of tags !! j = Some y →
       (i < j)%nat →
       ∃ l1 l2, collected = l1 ++ x :: l2 ∧ (x ∉ l1) ∧ (y ∉ l1) ∧ y ∈ l2) ∧
    (∀ w'', extends w' w'' →
       transformIndexHtml (configResolved rc p) server w'' = (Returned tags, w'')) ∧
    (∀ bundle,
       let '(p1, w1) := generateBundle (configResolved rc p) bundle w in
       ∃ tags1 w2,
         transformIndexHtml p1 false w1 = (Returned tags1, w2) ∧
         let '(p2, w3) := generateBundle p1 bundle w2 in
         transformIndexHtml p2 false w3 = (Returned tags1, w3)).
Proof.
  rewrite collect_images_lookups.
  destruct (lookups_spec (requests p (ResolvedConfig.publicDir rc) server) w)
    as (imgs & w' & Hrun & He & Hrep).
  rewrite Hrun.
  rewrite transformIndexHtml_run, Hrun.
  eexists (if server then imgs else imgs ++ assets p), _, w'.
  split_and!.
  - done.
  - reflexivity.
  - done.
  - apply new_Set_NoDup.
  - intros x. apply new_Set_elem.
  - intros i j x y. apply new_Set_order.
  - intros w'' He'. by rewrite transformIndexHtml_run, (Hrep w'' He').
  - intros bundle. apply (production_pass_twice p rc bundle w).
Qed.

(** ** C10: the asset accumulator only grows *)

Lemma run_hook_assets (p : Plugin) (w : World) (h : Hook) :
  assets p `prefix_of` assets (run_hook (p, w) h).1.
Proof.
  destruct h as [rc|bundle|server]; cbn [run_hook]; [done | | done].
  destruct (generateBundle_spec p bundle w) as (added & w' & -> & _).
  cbn. by apply prefix_app_r.
Qed.

Lemma run_hooks_assets (hooks : list Hook) (p : Plugin) (w : World) :
  assets p `prefix_of` assets (run_hooks hooks (p, w)).1.
Proof.
  revert p w. induction hooks as [|h rest IH]; intros p w; [done |].
  unfold run_hooks. cbn [foldl].
  pose proof (run_hook_assets p w h) as H1.
  destruct (run_hook (p, w) h) as [p1 w1]. etrans; [exact H1 | apply IH].
Qed.

(** C10.  Whatever hooks are called on an instance, in whatever order,
    [assets] keeps every entry it had, in place: the earlier list is a
    prefix of the later one.  One more bundle finalize appends to it, and
    the build transform then resolves a list that contains every entry of
    [assets], without duplicates. *)
Theorem assets_append_only
    (hooks : list Hook) (p : Plugin) (w : World) :
  ∃ p' w',
    run_hooks hooks (p, w) = (p', w') ∧
    assets p `prefix_of` assets p' ∧
    (∀ bundle, ∃ added w1,
       generateBundle p' bundle w' = (set_assets p' (assets p' ++ added), w1)) ∧
    (∀ rc w0, ∃ tags w1,
       transformIndexHtml (configResolved rc p') false w0 = (Returned tags, w1) ∧
       NoDup (resolved_of tags) ∧
       ∀ x, x ∈ assets p' → x ∈ resolved_of tags).
Proof.
  pose proof (run_hooks_assets hooks p w) as Hpre.
  destruct (run_hooks hooks (p, w)) as [p' w'] eqn:Hrun.
  exists p', w'. split_and!; [done | done | |].
  - intros bundle.
    destruct (generateBundle_spec p' bundle w') as (added & w1 & Hg & _).
    by exists added, w1.
  - intros rc w0. apply prod_transform_includes_assets.
Qed.

(** ** C6: source-root expansion on the dev server *)

(** C6, as stated, fails: a bare pattern string follows the global
    [publicDir] option.  With [publicDir: true] and a public root, the dev
    transform expands the bare string [img/*.png] relative to the public
    root: the one scan it performs carries the [cwd] option, and the list
    it resolves is not the pattern's expansion under the source root. *)
Lemma bare_string_follows_global_publicDir :
  match transformIndexHtml (configResolved demo_config demo_public_plugin)
          true demo_world with
  | (Returned tags, w') =>
      resolved_of tags = ["img/logo.png"] ∧
      scans w' = [("img/*.png", cwd_options "/app/public")] ∧
      resolved_of tags ≠ fg_sync demo_world "img/*.png" no_options
  | (Threw _, _) => False
  end.
Proof. vm_compute. split_and!; [done | done | discriminate]. Qed.

(** C6, amended.  On the dev server, with a cache that agrees with the
    file system, the transform resolves the ordered set of the expansions
    of its requests, target after target.  A target whose effective
    [fromPublicRoot] is false (a structured record with [publicDir: false],
    or a bare pattern string when the global [publicDir] option is false or
    absent) requests its pattern with no [cwd] option, that is relative to
    the project source root and not the public root.  When such a target is
    the only one declared, the resolved list is the pattern's expansion
    with duplicates removed, hence the expansion itself when it has none. *)
Theorem dev_source_target_expands_from_source_root
    (p : Plugin) (rc : ResolvedConfig.t) (w : World) :
  coherent (ResolvedConfig.publicDir rc) w →
  ∃ tags w',
    transformIndexHtml (configResolved rc p) true w = (Returned tags, w') ∧
    resolved_of tags =
      new_Set (expansions w (requests p (ResolvedConfig.publicDir rc) true)) ∧
    (∀ pattern, source_target p pattern →
       (pattern, no_options) ∈ requests p (ResolvedConfig.publicDir rc) true) ∧
    (∀ items item pattern,
       dirs p = DirsArr items → item ∈ items → item_is_source p item pattern →
       dev_request p (ResolvedConfig.publicDir rc) item = Some (pattern, no_options)) ∧
    (∀ pattern, single_target p → source_target p pattern →
       resolved_of tags = new_Set (fg_sync w pattern no_options) ∧
       (NoDup (fg_sync w pattern no_options) →
        resolved_of tags = fg_sync w pattern no_options)).
Proof.
  intros Hc. set (root := ResolvedConfig.publicDir rc) in *.
  destruct (lookups_coherent root (requests p root true) w Hc
              (requests_in_family p root true)) as (w' & Hrun & _ & _).
  eexists _, w'. rewrite transformIndexHtml_run. fold root. rewrite Hrun.
  split_and!; [done | done | | |].
  - intros pattern. apply source_target_requested.
  - intros items item pattern _ _. apply dev_request_source.
  - intros pattern Hsingle Ht. cbn [resolved_of HtmlTag.children].
    unfold render_script. cbn [Script.images].
    rewrite (single_source_target_requests p root pattern Hsingle Ht).
    unfold expansions. cbn. rewrite app_nil_r.
    split; [done | apply new_Set_id].
Qed.

Lemma dev_source_target_expands_from_source_root_witness :
  coherent (ResolvedConfig.publicDir demo_config) demo_world ∧
  ∃ tags w',
    transformIndexHtml (configResolved demo_config demo_plugin) true demo_world
      = (Returned tags, w') ∧
    resolved_of tags =
      new_Set (expansions demo_world
                 (requests demo_plugin (ResolvedConfig.publicDir demo_config) true)) ∧
    (∀ pattern, source_target demo_plugin pattern →
       (pattern, no_options) ∈
         requests demo_plugin (ResolvedConfig.publicDir demo_config) true) ∧
    (∀ items item pattern,
       dirs demo_plugin = DirsArr items → item ∈ items →
       item_is_source demo_plugin item pattern →
       dev_request demo_plugin (ResolvedConfig.publicDir demo_config) item
         = Some (pattern, no_options)) ∧
    (∀ pattern, single_target demo_plugin → source_target demo_plugin pattern →
       resolved_of tags = new_Set (fg_sync demo_world pattern no_options) ∧
       (NoDup (fg_sync demo_world pattern no_options) →
        resolved_of tags = fg_sync demo_world pattern no_options)).
Proof.
  assert (coherent (ResolvedConfig.publicDir demo_config) demo_world) as H
    by apply coherent_empty.
  split; [exact H |].
  exact (dev_source_target_expands_from_source_root demo_plugin demo_config
           demo_world H).
Defined.

(** Scenario A evaluated. *)
Example scenario_A :
  match (transformIndexHtml (configResolved demo_config demo_plugin) true demo_world).1 with
  | Returned tags => resolved_of tags = ["src/assets/a.png"; "src/assets/b.png"]
  | Threw _ => False
  end.
Proof. vm_compute. reflexivity. Qed.

(** ** C8: the lifetime of the expansion cache *)

(** C8, as stated, fails: the cache outlives the pass.  After one dev
    transform the file system changes; the next transform, a new pass,
    resolves the list of the first one from the cache, performs no scan,
    and misses the pattern's present expansion. *)
Lemma expansion_cache_outlives_the_pass :
  let p := configResolved demo_config demo_plugin in
  match transformIndexHtml p true demo_world with
  | (Returned tags1, w1) =>
      let later := with_fg_sync (λ _ _, ["src/assets/c.png"]) w1 in
      match transformIndexHtml p true later with
      | (Returned tags2, w2) =>
          resolved_of tags2 = resolved_of tags1 ∧
          scans w2 = scans w1 ∧
          resolved_of tags2 ≠ new_Set (fg_sync later "src/assets/*.png" no_options)
      | (Threw _, _) => False
      end
  | (Threw _, _) => False
  end.
Proof. vm_compute. split_and!; [done | done | discriminate]. Qed.

(** C8, amended.  Expansions are memoized per pattern+options key in the
    module-level cache, which no hook ever clears.  A lookup of a key that
    is absent scans the file system once and stores the result; a lookup
    of a key that is present returns the stored list and leaves the world
    as it is.  Once stored, the list is what every later lookup of the key
    returns, with no scan, after any hook of any plugin instance and any
    change of the file system, in the same pass or another; the resolved
    list itself is rebuilt by every transform, from these lookups. *)
Theorem expansion_memo_is_process_wide
    (pattern : string) (options : GlobOptions.t) (w : World) :
  ∃ files w1,
    getCachedGlobSync pattern options w = (Some files, w1) ∧
    (globCache w !! cache_key pattern options = None →
       files = fg_sync w pattern options ∧
       scans w1 = scans w ++ [(pattern, options)]) ∧
    (∀ stored, globCache w !! cache_key pattern options = Some stored →
       files = stored ∧ w1 = w) ∧
    (∀ w2, globCache w1 ⊆ globCache w2 →
       getCachedGlobSync pattern options w2 = (Some files, w2)) ∧
    (∀ p h w2, globCache w2 ⊆ globCache (run_hook (p, w2) h).2) ∧
    (∀ fs w2, globCache (with_fg_sync fs w2) = globCache w2).
Proof.
  destruct (getCachedGlobSync_spec pattern options w)
    as (files & w1 & Hg & Hl & Hsub & Hfs).
  exists files, w1. split_and!; [done | | | | | done].
  - intros Hnone. rewrite (getCachedGlobSync_miss _ _ _ Hnone) in Hg.
    by injection Hg as <- <-.
  - intros stored Hs. rewrite (getCachedGlobSync_hit _ _ _ _ Hs) in Hg.
    by injection Hg as <- <-.
  - intros w2 Hsub2. apply getCachedGlobSync_hit. by eapply lookup_weaken.
  - intros p h w2. apply run_hook_extends.
Qed.

(** ** C5: public-root targets without a public root *)

(** C5 at the input where the code departs from it: a single bare pattern
    with the global [publicDir] option, no public root, on the dev server.
    The transform does not skip the target: it expands the pattern with an
    empty [cwd] and resolves what that expansion returns. *)
Lemma single_string_dev_ignores_missing_public_root :
  match transformIndexHtml (configResolved demo_no_public_root demo_public_single)
          true demo_world_cwd with
  | (Returned tags, w') =>
      resolved_of tags = ["src/assets/a.png"; "src/assets/b.png"] ∧
      scans w' = [("src/assets/*.png", cwd_options "")]
  | (Threw _, _) => False
  end.
Proof. by vm_compute. Qed.

(** ** C4: aggregated configuration errors *)

(** C4 at the input where the code departs from it: a [null] item in the
    [dirs] array.  Construction throws the TypeError of the [in] operator
    instead of the aggregated error, and the [batchSize] violation that
    comes with it goes unreported. *)
Lemma null_item_escapes_aggregation (w : World) :
  VitePluginPreloadImages [("dirs", Arr [Null]); ("batchSize", Num 0)] w =
  (Threw (TypeError "Cannot use 'in' operator to search for 'dir' in null"), w).
Proof. reflexivity. Qed.

(** ** C9: what validation checks of a target *)

(** C9 at the input where the code departs from it: a structured record
    whose [dir] is blank and whose [publicDir] is not a boolean.  The type
    guard [IsDirOptions] only asks for the two keys, so validation accepts
    the record, and one with an empty [dir] as well, although it rejects
    the same blank pattern written as a bare string item of the array. *)
Lemma record_fields_are_not_validated :
  validateOptions
    [("dirs", Arr [Obj [("dir", Str "  "); ("publicDir", Str "yes")]])]
  = Returned tt ∧
  validateOptions
    [("dirs", Arr [Obj [("dir", Str ""); ("publicDir", Bool false)]])]
  = Returned tt ∧
  ∃ text,
    validateOptions [("dirs", Arr [Str "  "])] = Threw (Error text) ∧
    includes text (msg_item_empty 0) = true.
Proof.
  split; [reflexivity |]. split; [reflexivity |].
  eexists. split; [reflexivity |]. by vm_compute.
Qed.

(** ** C7: failures in the generated scheduler *)




(** The two states of that run: after the failures two items are awaited
    and one link is overdue; at the end nothing is left to happen and all
    five items are finished. *)
Example scheduler_run_with_failures :
  Scheduler.in_flight demo_failed = 2%nat ∧
  Scheduler.loading_links demo_failed = 3%nat ∧
  Scheduler.timeouts demo_events = 1%nat ∧
  Scheduler.quiescent demo_done ∧
  Scheduler.finished demo_done ≡ₚ Script.images demo_script.
Proof.
  split_and!; try reflexivity.
  - split; [|done]. by repeat constructor.
  - cbn. by rewrite (Permutation_swap "b.png" "c.png").
Qed.

(** Scenario D evaluated: with two workers and five URLs, [c.png] times
    out; all five items finish, and the console holds the two messages of
    the timeout only. *)
Example scenario_D :
  match Scheduler.run (Scheduler.start demo_script)
          [Scheduler.Load 0; Scheduler.Timeout 0; Scheduler.Load 1;
           Scheduler.Load 1; Scheduler.Load 0; Scheduler.LateLoad 0] with
  | Some st =>
      Scheduler.finished st = ["a.png"; "c.png"; "b.png"; "e.png"; "d.png"] ∧
      Scheduler.console st = [Scheduler.WarnTimeout "c.png"; Scheduler.ErrorCaught] ∧
      Scheduler.workers st = [Scheduler.Exited; Scheduler.Exited] ∧
      Scheduler.overdue st = []
  | None => False
  end.
Proof. by vm_compute. Qed.

(** * Further properties of the code *)

(** ** Construction and validation *)

Lemma check_batchSize_bad (options : list (string * Val)) (errors : list string) :
  has "batchSize" options && not_number_or_below (get "batchSize" options) 1 = true →
  msg_batchSize ∈ check_batchSize options errors.
Proof.
  intros H. unfold check_batchSize. rewrite H. apply elem_of_app. right. by left.
Qed.

Lemma check_timeout_bad (options : list (string * Val)) (errors : list string) :
  has "timeout" options && not_number_or_below (get "timeout" options) 1000 = true →
  msg_timeout ∈ check_timeout options errors.
Proof.
  intros H. unfold check_timeout. rewrite H. apply elem_of_app. right. by left.
Qed.

(** X1.  When no item of a [dirs] array is [null], construction with a
    missing or falsy [dirs], a [dirs] that is neither a string nor an
    array, a [batchSize] that is present and is not of type number or is
    less than 1, or a [timeout] that is present and is not of type number
    or is less than 1000, throws one [Error]; its message names every one
    of these violations that occurs, and the world is left as it was.
    ([NaN] is of type number and less than nothing: it is no violation.) *)
Theorem construction_reports_every_violation
    (options : list (string * Val)) (w : World) :
  let dirs := get "dirs" options in
  let dirs_missing := truthy dirs = false in
  let dirs_wrong :=
    truthy dirs = true ∧ typeof dirs ≠ "string" ∧ isArray dirs = false in
  let batch_bad :=
    has "batchSize" options && not_number_or_below (get "batchSize" options) 1
    = true in
  let timeout_bad :=
    has "timeout" options && not_number_or_below (get "timeout" options) 1000
    = true in
  (∀ items, dirs = Arr items → Null ∉ items) →
  dirs_missing ∨ dirs_wrong ∨ batch_bad ∨ timeout_bad →
  ∃ text,
    VitePluginPreloadImages options w = (Threw (Error text), w) ∧
    (dirs_missing → includes text msg_dirs_required = true) ∧
    (dirs_wrong → includes text msg_dirs_type = true) ∧
    (batch_bad → includes text msg_batchSize = true) ∧
    (timeout_bad → includes text msg_timeout = true).
Proof.
  cbn zeta. intros Hnn Hbad.
  assert (truthy (get "dirs" options) = false →
          msg_dirs_required ∈ all_messages options) as H1.
  { intros Ht. apply all_messages_dirs. unfold dirs_messages. rewrite Ht. by left. }
  assert (truthy (get "dirs" options) = true ∧
          typeof (get "dirs" options) ≠ "string" ∧
          isArray (get "dirs" options) = false →
          msg_dirs_type ∈ all_messages options) as H2.
  { intros (Ht & Hs & Ha). apply all_messages_dirs. unfold dirs_messages.
    rewrite Ht. destruct (get "dirs" options); try done; by left. }
  assert (has "batchSize" options
          && not_number_or_below (get "batchSize" options) 1 = true →
          msg_batchSize ∈ all_messages options) as H3.
  { intros H. by apply check_timeout_elem, check_batchSize_bad. }
  assert (has "timeout" options
          && not_number_or_below (get "timeout" options) 1000 = true →
          msg_timeout ∈ all_messages options) as H4.
  { intros H. by apply check_timeout_bad. }
  assert (∃ m, m ∈ all_messages options) as [m Hm].
  { destruct Hbad as [?|[?|[?|?]]]; eauto. }
  unfold VitePluginPreloadImages.
  pose proof (validateOptions_outcome options) as Hv.
  destruct (validateOptions options) as [[]|e].
  - rewrite Hv in Hm. by apply elem_of_nil in Hm.
  - destruct Hv as [[_ ->] | [(items & Hd & Hnull) _]];
      [| by destruct (Hnn items Hd)].
    eexists. split; [reflexivity |].
    split_and!; intros Hc.
    + destruct (config_error_mentions _ _ (H1 Hc)) as (t & [= <-] & ?); done.
    + destruct (config_error_mentions _ _ (H2 Hc)) as (t & [= <-] & ?); done.
    + destruct (config_error_mentions _ _ (H3 Hc)) as (t & [= <-] & ?); done.
    + destruct (config_error_mentions _ _ (H4 Hc)) as (t & [= <-] & ?); done.
Qed.

Lemma construction_reports_every_violation_witness :
  let options := [("batchSize", Num 0); ("timeout", Num 999)] in
  let dirs := get "dirs" options in
  let dirs_missing := truthy dirs = false in
  let dirs_wrong :=
    truthy dirs = true ∧ typeof dirs ≠ "string" ∧ isArray dirs = false in
  let batch_bad :=
    has "batchSize" options && not_number_or_below (get "batchSize" options) 1
    = true in
  let timeout_bad :=
    has "timeout" options && not_number_or_below (get "timeout" options) 1000
    = true in
  (∀ items, dirs = Arr items → Null ∉ items) ∧
  (dirs_missing ∨ dirs_wrong ∨ batch_bad ∨ timeout_bad) ∧
  ∃ text,
    VitePluginPreloadImages options demo_world = (Threw (Error text), demo_world) ∧
    (dirs_missing → includes text msg_dirs_required = true) ∧
    (dirs_wrong → includes text msg_dirs_type = true) ∧
    (batch_bad → includes text msg_batchSize = true) ∧
    (timeout_bad → includes text msg_timeout = true).
Proof.
  cbn zeta.
  assert (∀ items, get "dirs" [("batchSize", Num 0); ("timeout", Num 999)]
                   = Arr items → Null ∉ items) as H1 by (intros items H; discriminate).
  split; [exact H1 |]. split; [by left |].
  exact (construction_reports_every_violation
           [("batchSize", Num 0); ("timeout", Num 999)] demo_world H1
           (or_introl eq_refl)).
Defined.

(** X2.  A single pattern that is not the empty string passes validation,
    blank or not (only array items are trimmed), and construction yields
    the closure with the defaults [batchSize = 2], [publicDir = false],
    [timeout = 5000], no attributes, no assets and no configuration; the
    empty string is rejected as a missing [dirs]. *)
Theorem single_pattern_construction (s : string) (w : World) :
  VitePluginPreloadImages [("dirs", Str s)] w =
  if String.eqb s ""
  then (Threw (config_error [msg_dirs_required]), w)
  else (Returned (Some {| dirs := DirsStr s; attrs := []; batchSize := 2;
                          publicDir := false; timeout := 5000;
                          assets := []; config := None |}), w).
Proof.
  destruct (String.eqb s "") eqn:E.
  - apply String.eqb_eq in E as ->. reflexivity.
  - unfold VitePluginPreloadImages, validateOptions, check_dirs.
    assert (get "dirs" [("dirs", Str s)] = Str s) as -> by reflexivity.
    cbn [truthy]. rewrite E. reflexivity.
Qed.

(** ** The cache and the bundle *)

(** X3.  Among the requests one instance can make, the cache key
    determines the pattern and the options, and a lookup leaves the entry
    of every other request as it was. *)
Theorem cache_keys_do_not_collide
    (root pattern pattern' : string) (options options' : GlobOptions.t) (w : World) :
  in_family root options → in_family root options' →
  (cache_key pattern options = cache_key pattern' options' →
   pattern = pattern' ∧ options = options') ∧
  ((pattern, options) ≠ (pattern', options') →
   globCache (getCachedGlobSync pattern options w).2 !! cache_key pattern' options'
   = globCache w !! cache_key pattern' options').
Proof.
  intros Hf Hf'. split; [by apply (cache_key_inj root) |].
  intros Hne.
  assert (cache_key pattern options ≠ cache_key pattern' options') as Hk.
  { intros [-> ->]%(cache_key_inj root); done. }
  destruct (globCache w !! cache_key pattern options) as [files|] eqn:Hl.
  - by rewrite (getCachedGlobSync_hit _ _ _ _ Hl).
  - rewrite (getCachedGlobSync_miss _ _ _ Hl). cbn. by rewrite lookup_insert_ne.
Qed.

Lemma cache_keys_do_not_collide_witness :
  in_family "/app/public" no_options ∧
  in_family "/app/public" (cwd_options "/app/public") ∧
  (cache_key "img/*.png" no_options
     = cache_key "img/*.png" (cwd_options "/app/public") →
   "img/*.png" = "img/*.png" ∧ no_options = cwd_options "/app/public") ∧
  (("img/*.png", no_options) ≠ ("img/*.png", cwd_options "/app/public") →
   globCache (getCachedGlobSync "img/*.png" no_options demo_world).2
     !! cache_key "img/*.png" (cwd_options "/app/public")
   = globCache demo_world !! cache_key "img/*.png" (cwd_options "/app/public")).
Proof.
  assert (in_family "/app/public" no_options) as H1 by (by left).
  assert (in_family "/app/public" (cwd_options "/app/public")) as H2 by (by right).
  split; [exact H1 |]. split; [exact H2 |].
  exact (cache_keys_do_not_collide "/app/public" "img/*.png" "img/*.png"
           no_options (cwd_options "/app/public") demo_world H1 H2).
Defined.

Lemma match_nothing_in_empty (b : Output.t) : matchBundleWithFiles b (Some []) = false.
Proof.
  unfold matchBundleWithFiles. destruct (truthy_prop _); [|done].
  destruct (Output.originalFileName b); [|done].
  apply bool_decide_eq_false. by intros ?%elem_of_nil.
Qed.

(** X4.  [collectMatchedFiles] returns the final names of the artifacts
    that match the cached expansion of the pattern, in bundle order and
    once per matching artifact; a pattern that expands to nothing matches
    no artifact. *)
Theorem collectMatchedFiles_in_bundle_order
    (pattern : string) (bundles : list Output.t) (options : GlobOptions.t)
    (w : World) :
  ∃ files w',
    getCachedGlobSync pattern options w = (Some files, w') ∧
    collectMatchedFiles pattern bundles options w =
      (Output.fileName <$>
         filter (λ b, matchBundleWithFiles b (Some files) = true) bundles, w') ∧
    (files = [] → (collectMatchedFiles pattern bundles options w).1 = []).
Proof.
  destruct (collectMatchedFiles_spec pattern bundles options w)
    as (files & w' & Hc & Hg & _).
  exists files, w'. split_and!; [done | done |].
  intros ->. rewrite Hc. cbn [fst]. clear.
  induction bundles as [|b rest IH]; [done |].
  rewrite filter_cons_False by (by rewrite match_nothing_in_empty). exact IH.
Qed.

Lemma set_assets_same (p : Plugin) : set_assets p (assets p) = p.
Proof. by destruct p. Qed.

(** X5.  When every target reads from the public root, [generateBundle]
    leaves the instance and the world as they are: nothing is expanded and
    nothing is matched against the bundle. *)
Theorem generateBundle_skips_public_targets
    (p : Plugin) (bundle : list (string * Output.t)) (w : World) :
  all_public p → generateBundle p bundle w = (p, w).
Proof.
  intros Hall. rewrite generateBundle_collects.
  assert (source_patterns p = []) as ->.
  { unfold source_patterns, all_public in *. destruct (dirs p) as [s|items].
    - by rewrite Hall.
    - induction items as [|item rest IH]; [done |].
      cbn [omap list_omap].
      assert (item_source_pattern p item = None) as ->.
      { specialize (Hall item (list_elem_of_here _ _)).
        destruct item as [s|d]; cbn; by rewrite Hall. }
      apply IH. intros x Hx. apply Hall. by right. }
  cbn. by rewrite set_assets_same.
Qed.

Lemma generateBundle_skips_public_targets_witness :
  all_public demo_public_plugin ∧
  generateBundle demo_public_plugin [("assets/a.1a2b.png", demo_exact)] demo_world
  = (demo_public_plugin, demo_world).
Proof.
  assert (all_public demo_public_plugin) as H.
  { intros item ->%list_elem_of_singleton. reflexivity. }
  split; [exact H |].
  exact (generateBundle_skips_public_targets demo_public_plugin
           [("assets/a.1a2b.png", demo_exact)] demo_world H).
Defined.

(** X6.  On the dev server the transform does not read [assets]: whatever
    the bundle hooks accumulated, it resolves the same list and leaves the
    same world. *)
Theorem dev_transform_ignores_assets
    (p : Plugin) (rc : ResolvedConfig.t) (accumulated : list string) (w : World) :
  transformIndexHtml (configResolved rc (set_assets p accumulated)) true w =
  transformIndexHtml (configResolved rc p) true w.
Proof. by rewrite !transformIndexHtml_run. Qed.



Lemma getCachedGlobSync_scans (pattern : string) (options : GlobOptions.t) (w : World) :
  scans (getCachedGlobSync pattern options w).2 = scans w ∨
  scans (getCachedGlobSync pattern options w).2 = scans w ++ [(pattern, options)].
Proof.
  destruct (globCache w !! cache_key pattern options) as [files|] eqn:Hl.
  - left. by rewrite (getCachedGlobSync_hit _ _ _ _ Hl).
  - right. by rewrite (getCachedGlobSync_miss _ _ _ Hl).
Qed.

Lemma lookups_scans (reqs : list (string * GlobOptions.t)) (images : list string)
    (w : World) (x : string * GlobOptions.t) :
  x ∈ scans (lookups reqs images w).2 → x ∈ scans w ∨ x ∈ reqs.
Proof.
  revert images w. induction reqs as [|[pattern options] rest IH]; intros images w.
  - cbn. by left.
  - cbn [lookups].
    pose proof (getCachedGlobSync_scans pattern options w) as Hs.
    destruct (getCachedGlobSync pattern options w) as [files w1]. cbn [snd] in Hs.
    intros [Hx | Hx]%IH; [| right; by right].
    destruct Hs as [Hs | Hs]; rewrite Hs in Hx; [by left |].
    apply elem_of_app in Hx as [Hx | ->%list_elem_of_singleton];
      [by left | right; by left].
Qed.

Lemma requests_without_root_build (p : Plugin) : requests p "" false = [].
Proof.
  unfold requests. destruct (dirs p) as [s|items].
  - by rewrite andb_false_r.
  - induction items as [|item rest IH]; [done |]. cbn [omap list_omap].
    unfold prod_request at 1. destruct (item_target p item) as [pattern flag].
    by rewrite andb_false_r.
Qed.

Lemma requests_without_root_dev (p : Plugin) (items : list DirItem)
    (req : string * GlobOptions.t) :
  dirs p = DirsArr items → req ∈ requests p "" true → req.2 = no_options.
Proof.
  unfold requests. intros ->. intros (item & _ & Hreq)%list_elem_of_omap.
  unfold dev_request in Hreq. destruct (item_target p item) as [pattern flag].
  destruct flag; cbn in Hreq; [done | by injection Hreq as <-].
Qed.

(** X8.  Without a public root (the resolved [publicDir] is empty), the
    guarded paths skip every public-root target silently: a build
    transform expands nothing, leaves the world as it is and resolves the
    ordered set of [assets]; a dev transform over a [dirs] array returns
    and scans only with no [cwd] option. *)
Theorem missing_public_root_is_skipped_where_guarded
    (p : Plugin) (rc : ResolvedConfig.t) (w : World) :
  ResolvedConfig.publicDir rc = "" →
  transformIndexHtml (configResolved rc p) false w =
    (Returned [HtmlTag.Build "script" "head"
                 (render_script (configResolved rc p) (new_Set (assets p)))], w) ∧
  (∀ items, dirs p = DirsArr items →
     ∃ tags w',
       transformIndexHtml (configResolved rc p) true w = (Returned tags, w') ∧
       ∀ req, req ∈ scans w' → req ∈ scans w ∨ req.2 = no_options).
Proof.
  intros Hroot. rewrite !transformIndexHtml_run, Hroot. split.
  - by rewrite requests_without_root_build.
  - intros items Hd.
    pose proof (lookups_scans (requests p "" true) [] w) as Hs.
    destruct (lookups (requests p "" true) [] w) as [imgs w'].
    eexists _, w'. split; [reflexivity |].
    intros req [Hr | Hr]%Hs; [by left | right].
    by eapply requests_without_root_dev.
Qed.

Lemma missing_public_root_is_skipped_where_guarded_witness :
  ResolvedConfig.publicDir demo_no_public_root = "" ∧
  transformIndexHtml (configResolved demo_no_public_root demo_public_plugin)
    false demo_world =
    (Returned [HtmlTag.Build "script" "head"
                 (render_script (configResolved demo_no_public_root demo_public_plugin)
                    (new_Set (assets demo_public_plugin)))], demo_world) ∧
  (∀ items, dirs demo_public_plugin = DirsArr items →
     ∃ tags w',
       transformIndexHtml (configResolved demo_no_public_root demo_public_plugin)
         true demo_world = (Returned tags, w') ∧
       ∀ req, req ∈ scans w' → req ∈ scans demo_world ∨ req.2 = no_options).
Proof.
  split; [reflexivity |].
  exact (missing_public_root_is_skipped_where_guarded demo_public_plugin
           demo_no_public_root demo_world eq_refl).
Defined.

(** X9.  A transform that runs before [configResolved] and declares a
    single pattern throws the TypeError of reading [publicDir] of
    [undefined] when the global [publicDir] option is set, on the dev
    server and in a build, without touching the world; when the option is
    not set it never reads the configuration and behaves as after
    [configResolved]. *)
Theorem transform_before_configResolved
    (p : Plugin) (s : string) (server : bool) (w : World) (rc : ResolvedConfig.t) :
  config p = None → dirs p = DirsStr s →
  transformIndexHtml p server w =
  if publicDir p
  then (Threw (TypeError "Cannot read properties of undefined (reading 'publicDir')"),
        w)
  else transformIndexHtml (configResolved rc p) server w.
Proof.
  intros Hc Hd. destruct (publicDir p) eqn:Hp.
  - unfold transformIndexHtml, resolve_images, collect_images, prod_public,
      and_public_root, cwd_if, config_publicDir.
    rewrite Hd, Hp, Hc. by destruct server.
  - unfold transformIndexHtml, resolve_images, collect_images, prod_public,
      and_public_root, cwd_if, render_script.
    cbn [configResolved set_config dirs publicDir assets attrs timeout batchSize].
    rewrite Hd, Hp. by destruct server.
Qed.

Lemma transform_before_configResolved_witness :
  config demo_public_single = None ∧
  dirs demo_public_single = DirsStr "src/assets/*.png" ∧
  transformIndexHtml demo_public_single true demo_world =
  if publicDir demo_public_single
  then (Threw (TypeError "Cannot read properties of undefined (reading 'publicDir')"),
        demo_world)
  else transformIndexHtml (configResolved demo_config demo_public_single) true
         demo_world.
Proof.
  split; [reflexivity |]. split; [reflexivity |].
  exact (transform_before_configResolved demo_public_single "src/assets/*.png" true
           demo_world demo_config eq_refl eq_refl).
Defined.

(** Both cases evaluated: with the global [publicDir] option the transform
    throws, on the dev server and in a build; without it the dev transform
    resolves the pattern's expansion. *)
Example transform_before_configResolved_cases :
  (transformIndexHtml demo_public_single true demo_world).1 =
    Threw (TypeError "Cannot read properties of undefined (reading 'publicDir')") ∧
  (transformIndexHtml demo_public_single false demo_world).1 =
    Threw (TypeError "Cannot read properties of undefined (reading 'publicDir')") ∧
  match (transformIndexHtml demo_plugin true demo_world).1 with
  | Returned tags => resolved_of tags = ["src/assets/a.png"; "src/assets/b.png"]
  | Threw _ => False
  end.
Proof. by vm_compute. Qed.

(** ** The earlier revision that two of the dist builds carry *)

Lemma match_original_only_agrees (b : Output.t) (files : option (list string)) :
  exposes_source b → matchBundleWithFiles b files = match_original_only b files.
Proof.
  unfold exposes_source, matchBundleWithFiles, match_original_only.
  intros ->. by destruct files.
Qed.

Lemma dist_fold_none (files : option (list string)) (bundles : list Output.t)
    (acc : list string) :
  (∀ b, b ∈ bundles → Output.originalFileName b = None) →
  foldl (λ assets bundle,
           if match_original_only bundle files
           then assets ++ [Output.fileName bundle] else assets) acc bundles = acc.
Proof.
  revert acc. induction bundles as [|b rest IH]; intros acc Hall; [done |].
  cbn [foldl]. unfold match_original_only at 2.
  rewrite (Hall b (list_elem_of_here _ _)).
  destruct files; apply IH; intros x Hx; apply Hall; by right.
Qed.

Lemma dist_fold_agrees (files : option (list string)) (bundles : list Output.t)
    (acc : list string) :
  (∀ b, b ∈ bundles → exposes_source b) →
  foldl (λ assets bundle,
           if match_original_only bundle files
           then assets ++ [Output.fileName bundle] else assets) acc bundles =
  acc ++ foldl (λ matchedFiles bundle,
                  if matchBundleWithFiles bundle files
                  then matchedFiles ++ [Output.fileName bundle] else matchedFiles)
               [] bundles.
Proof.
  intros Hall. rewrite collect_fold. cbn [app]. revert acc.
  induction bundles as [|b rest IH]; intros acc.
  - cbn. by rewrite app_nil_r.
  - cbn [foldl].
    rewrite <- (match_original_only_agrees b files) by (apply Hall; by left).
    rewrite IH by (intros x Hx; apply Hall; by right).
    destruct (matchBundleWithFiles b files) eqn:Hm.
    + rewrite filter_cons_True by done. cbn. by rewrite <- app_assoc.
    + rewrite filter_cons_False by (by rewrite Hm). done.
Qed.

Lemma collect_dist_none pattern bundles acc (w : World) :
  (∀ b, b ∈ bundles → Output.originalFileName b = None) →
  (collect_dist pattern bundles acc w).1 = acc.
Proof.
  intros Hall. unfold collect_dist.
  destruct (getCachedGlobSync pattern no_options w) as [files w'].
  cbn [fst]. by apply dist_fold_none.
Qed.

Lemma collect_dist_agrees pattern bundles acc (w : World) :
  (∀ b, b ∈ bundles → exposes_source b) →
  collect_dist pattern bundles acc w =
  let '(matched, w') := collectMatchedFiles pattern bundles no_options w in
  (acc ++ matched, w').
Proof.
  intros Hall. unfold collect_dist, collectMatchedFiles.
  destruct (getCachedGlobSync pattern no_options w) as [files w'].
  by rewrite dist_fold_agrees.
Qed.

(** X10.  The earlier revision of [generateBundle], the one in the
    CommonJS build and in the earlier of the two ES-module builds, has no
    fallback: over a bundle in which no artifact carries an
    [originalFileName] it adds nothing to [assets]; over a bundle in which
    every artifact exposes its source path it does exactly what the
    current revision does. *)
Theorem dist_build_matches_by_source_path_only
    (p : Plugin) (bundle : list (string * Output.t)) (w : World) :
  ((∀ b, b ∈ Object_values bundle → Output.originalFileName b = None) →
   assets (generateBundle_dist p bundle w).1 = assets p) ∧
  ((∀ b, b ∈ Object_values bundle → exposes_source b) →
   generateBundle_dist p bundle w = generateBundle p bundle w).
Proof.
  unfold generateBundle_dist, generateBundle. split; intros Hall.
  - destruct (dirs p) as [s|items].
    + destruct (negb (publicDir p)); [|done].
      pose proof (collect_dist_none s _ (assets p) w Hall) as H.
      by destruct (collect_dist s (Object_values bundle) (assets p) w).
    + assert (∀ acc w0,
                (foldl (generateBundle_dist_item p (Object_values bundle))
                       (acc, w0) items).1 = acc) as Hfold.
      { induction items as [|item rest IH]; intros acc w0; [done |].
        cbn [foldl]. unfold generateBundle_dist_item at 2.
        destruct item as [s|d].
        - destruct (negb (publicDir p)); [|apply IH].
          pose proof (collect_dist_none s _ acc w0 Hall) as H.
          destruct (collect_dist s (Object_values bundle) acc w0) as [a1 w1].
          cbn in H. subst a1. apply IH.
        - destruct (negb (DirOptions.publicDir d)); [|apply IH].
          pose proof (collect_dist_none (DirOptions.dir d) _ acc w0 Hall) as H.
          destruct (collect_dist _ (Object_values bundle) acc w0) as [a1 w1].
          cbn in H. subst a1. apply IH. }
      specialize (Hfold (assets p) w).
      by destruct (foldl _ (assets p, w) items).
  - destruct (dirs p) as [s|items].
    + destruct (negb (publicDir p)); [|done].
      rewrite (collect_dist_agrees _ _ _ _ Hall).
      by destruct (collectMatchedFiles s _ no_options w).
    + assert (∀ st,
                foldl (generateBundle_dist_item p (Object_values bundle)) st items =
                foldl (generateBundle_item p (Object_values bundle)) st items) as ->;
        [|done].
      induction items as [|item rest IH]; intros [acc w0]; [done |].
      cbn [foldl]. rewrite <- IH. f_equal.
      unfold generateBundle_dist_item, generateBundle_item.
      destruct item as [s|d].
      * destruct (negb (publicDir p)); [|done].
        by rewrite (collect_dist_agrees _ _ _ _ Hall).
      * destruct (negb (DirOptions.publicDir d)); [|done].
        by rewrite (collect_dist_agrees _ _ _ _ Hall).
Qed.

(** ** The scheduler's queue *)

Lemma loop_order (st : Scheduler.State) :
  ∃ wk st',
    Scheduler.loop st = (wk, st') ∧
    Scheduler.item_of wk ++ Scheduler.images st' = Scheduler.images st ∧
    Scheduler.links st' =
      Scheduler.links st ++ List.filter str_truthy (Scheduler.item_of wk).
Proof.
  unfold Scheduler.loop, Scheduler.loadImage.
  destruct (Scheduler.images st) as [|src rest] eqn:Hq.
  - exists Scheduler.Exited, st. cbn. by rewrite Hq, app_nil_r.
  - destruct (str_truthy src) eqn:Ht; eexists _, _; (split; [reflexivity |]); cbn.
    + by rewrite Ht.
    + unfold str_truthy in Ht. destruct (String.eqb_spec src "") as [->|]; [|done].
      cbn. by rewrite app_nil_r.
Qed.

Lemma resume_order all i st :
  in_queue_order all st → in_queue_order all (Scheduler.resume i st).
Proof.
  intros (taken & Hall & Hl). unfold Scheduler.resume.
  destruct (loop_order st) as (wk & st' & -> & Hq & Hl').
  exists (taken ++ Scheduler.item_of wk). cbn. split.
  - by rewrite <- app_assoc, Hq.
  - by rewrite Hl', Hl, List.filter_app.
Qed.

Lemma step_order all st ev st' :
  in_queue_order all st → Scheduler.step st ev = Some st' → in_queue_order all st'.
Proof.
  intros Ho Hs. destruct ev as [i|i|i|i|k|k]; cbn [Scheduler.step] in Hs.
  1-4: destruct (Scheduler.workers st !! i) as [[src| | |]|]; try done;
       injection Hs as <-;
       rewrite ?SchedulerFacts.settled_fulfilled, ?SchedulerFacts.settled_rejected;
       by apply resume_order.
  all: destruct (Scheduler.overdue st !! k); [|done]; by injection Hs as <-.
Qed.

Lemma spawn_order all n st :
  in_queue_order all st → in_queue_order all (Scheduler.spawn n st).
Proof.
  revert st. induction n as [|n IH]; intros st Ho; [done |].
  cbn [Scheduler.spawn]. destruct Ho as (taken & Hall & Hl).
  destruct (loop_order st) as (wk & st' & -> & Hq & Hl').
  apply IH. exists (taken ++ Scheduler.item_of wk). cbn. split.
  - by rewrite <- app_assoc, Hq.
  - by rewrite Hl', Hl, List.filter_app.
Qed.

(** X11.  The scheduler drains the queue front to back: in every state it
    reaches, the items no longer queued are a prefix of the script's list,
    and the links appended to the document are the non-empty ones among
    them, in the list's order. *)
Theorem scheduler_starts_items_in_queue_order
    (script : Script.t) (events : list Scheduler.Event) (st : Scheduler.State) :
  Scheduler.run (Scheduler.start script) events = Some st →
  ∃ taken,
    Script.images script = taken ++ Scheduler.images st ∧
    Scheduler.links st = List.filter str_truthy taken.
Proof.
  unfold Scheduler.start. cbn zeta.
  destruct (2 ^ 32 <=? ToLength (Script.batchSize script)); [done |].
  cbn [Scheduler.run].
  assert (in_queue_order (Script.images script)
            (Scheduler.spawn (Z.to_nat (ToLength (Script.batchSize script)))
               (Scheduler.MkState (Script.images script) [] [] [] [] []))) as H0.
  { apply spawn_order. by exists []. }
  revert H0. generalize (Scheduler.spawn (Z.to_nat (ToLength (Script.batchSize script)))
               (Scheduler.MkState (Script.images script) [] [] [] [] [])). clear.
  induction events as [|ev rest IH]; intros st0 H0 Hrun; cbn in Hrun.
  - by injection Hrun as <-.
  - destruct (Scheduler.step st0 ev) as [st1|] eqn:Hs; [|done].
    eapply IH; [|done]. by eapply step_order.
Qed.

Lemma scheduler_starts_items_in_queue_order_witness :
  Scheduler.run (Scheduler.start demo_script)
    [Scheduler.Load 0; Scheduler.Timeout 0] =
  Some (Scheduler.MkState ["e.png"]
          [Scheduler.Loading "d.png"; Scheduler.Loading "b.png"]
          ["a.png"; "b.png"; "c.png"; "d.png"] ["c.png"]
          [Scheduler.WarnTimeout "c.png"; Scheduler.ErrorCaught]
          ["a.png"; "c.png"]) ∧
  ∃ taken,
    Script.images demo_script = taken ++ ["e.png"] ∧
    ["a.png"; "b.png"; "c.png"; "d.png"] = List.filter str_truthy taken.
Proof.
  split; [reflexivity |].
  exact (scheduler_starts_items_in_queue_order demo_script
           [Scheduler.Load 0; Scheduler.Timeout 0] _ eq_refl).
Defined.

Lemma spawn_shape n (st : Scheduler.State) :
  Scheduler.images (Scheduler.spawn n st) = drop n (Scheduler.images st) ∧
  Scheduler.in_progress (Scheduler.workers (Scheduler.spawn n st)) =
    Scheduler.in_progress (Scheduler.workers st) ++ take n (Scheduler.images st) ∧
  Scheduler.console (Scheduler.spawn n st) = Scheduler.console st ∧
  Scheduler.finished (Scheduler.spawn n st) = Scheduler.finished st.
Proof.
  revert st. induction n as [|n IH]; intros st.
  - cbn. by rewrite app_nil_r.
  - cbn [Scheduler.spawn].
    destruct (SchedulerFacts.loop_spec st)
      as (wk & st' & -> & Hq & Hw & Ho & Hf & Hc & He & Hemp & Hnc).
    destruct (IH (Scheduler.set_workers st' (Scheduler.workers st' ++ [wk])))
      as (H1 & H2 & H3 & H4).
    rewrite H1, H2, H3, H4.
    cbn [Scheduler.images Scheduler.workers Scheduler.console Scheduler.finished
         Scheduler.set_workers].
    rewrite Hw, Hf, Hc, SchedulerFacts.in_progress_app.
    assert (Scheduler.in_progress [wk] = Scheduler.item_of wk) as ->
      by (unfold Scheduler.in_progress; cbn; by rewrite app_nil_r).
    rewrite <- Hq, <- app_assoc.
    split_and!; [| | done | done].
    + destruct wk as [x| | |]; cbn [Scheduler.item_of app drop];
        [done | done | | done].
      rewrite (He eq_refl). by rewrite drop_nil.
    + f_equal. destruct wk as [x| | |]; cbn [Scheduler.item_of app take];
        [done | done | | done].
      rewrite (He eq_refl). by rewrite take_nil.
Qed.

(** X12.  [Array.from] reads the number of workers from [batchSize]
    through [ToLength].  A length of 2^32 or more is a RangeError and
    nothing starts.  Otherwise the script starts with that many workers:
    the first items of the list, one per worker in list order (all of them
    when the list is shorter), are in progress, the rest is queued, nothing
    is finished and the console is empty; the workers beyond the length of
    the list have returned at once. *)
Theorem scheduler_start_takes_first_batch (script : Script.t) :
  let len := ToLength (Script.batchSize script) in
  let n := Z.to_nat len in
  match Scheduler.start script with
  | Scheduler.RangeError => 2 ^ 32 ≤ len
  | Scheduler.Running st =>
      len < 2 ^ 32 ∧
      Scheduler.images st = drop n (Script.images script) ∧
      Scheduler.in_progress (Scheduler.workers st) = take n (Script.images script) ∧
      length (Scheduler.workers st) = n ∧
      Scheduler.finished st = [] ∧
      Scheduler.console st = []
  end.
Proof.
  cbn zeta.
  destruct (Scheduler.start script) as [st|] eqn:Hstart.
  - destruct (SchedulerFacts.start_inv script st Hstart) as [_ Hlen].
    unfold Scheduler.start in Hstart. cbn zeta in Hstart.
    destruct (Z.leb_spec (2 ^ 32) (ToLength (Script.batchSize script)));
      [done |]. injection Hstart as <-.
    destruct (spawn_shape (Z.to_nat (ToLength (Script.batchSize script)))
                (Scheduler.MkState (Script.images script) [] [] [] [] []))
      as (H1 & H2 & H3 & H4).
    split_and!; [done | done | done | | done | done].
    exact Hlen.
  - unfold Scheduler.start in Hstart. cbn zeta in Hstart.
    by destruct (Z.leb_spec (2 ^ 32) (ToLength (Script.batchSize script))).
Qed.

(** ** Numbers that validation lets through *)

(** X13.  Validation tests [batchSize] with [typeof] and [<] only, so a
    number that is not less than 1 passes, whatever it is: construction
    with a single non-empty pattern and such a [batchSize] returns the
    instance that carries it, and throws the aggregated error otherwise.
    [NaN] passes; the script generated for it starts no worker, no event
    can happen and no item is ever started.  A number from 2^32 on passes,
    and so does [Infinity]; the script generated for it ends in a
    RangeError.  A number that is not an integer counts as the integer
    below it. *)
Theorem batchSize_is_only_compared
    (s : string) (x : Number) (images : list string) (w : World) :
  s ≠ "" →
  let p := {| dirs := DirsStr s; attrs := []; batchSize := x;
              publicDir := false; timeout := 5000;
              assets := []; config := None |} in
  VitePluginPreloadImages [("dirs", Str s); ("batchSize", Num x)] w =
    (if number_lt x 1 then (Threw (config_error [msg_batchSize]), w)
     else (Returned (Some p), w)) ∧
  (x = NaN →
     number_lt x 1 = false ∧
     Scheduler.start (render_script p images) =
       Scheduler.Running (Scheduler.MkState images [] [] [] [] []) ∧
     ∀ events st,
       Scheduler.run (Scheduler.start (render_script p images)) events = Some st →
       events = [] ∧ Scheduler.links st = [] ∧ Scheduler.finished st = []) ∧
  (x = Infinity false ∨ (∃ n : Z, x = Int n ∧ 2 ^ 32 ≤ n) →
     number_lt x 1 = false ∧
     Scheduler.start (render_script p images) = Scheduler.RangeError) ∧
  (∀ below text, x = Frac below text →
     Scheduler.start (render_script p images) =
     Scheduler.start
       (render_script {| dirs := DirsStr s; attrs := []; batchSize := Int below;
                         publicDir := false; timeout := 5000;
                         assets := []; config := None |} images)).
Proof.
  intros Hs. cbn zeta. split_and!.
  - unfold VitePluginPreloadImages, validateOptions, check_dirs.
    assert (get "dirs" [("dirs", Str s); ("batchSize", Num x)] = Str s) as ->
      by reflexivity.
    cbn [truthy typeof isArray negb andb]. rewrite (proj2 (String.eqb_neq s "") Hs).
    cbn [negb bind]. unfold check_batchSize, check_timeout.
    change (has "batchSize" [("dirs", Str s); ("batchSize", Num x)]) with true.
    change (has "timeout" [("dirs", Str s); ("batchSize", Num x)]) with false.
    change (get "batchSize" [("dirs", Str s); ("batchSize", Num x)]) with (Num x).
    unfold not_number_or_below. cbn [typeof String.eqb negb orb andb].
    change (("number" =? "number")%string) with true. cbn [negb orb andb].
    by destruct (number_lt x 1).
  - intros ->. split; [done |]. split; [done |].
    intros [|ev rest] st Hrun; cbn in Hrun.
    + by injection Hrun as <-.
    + by destruct ev as [[|i]|[|i]|[|i]|[|i]|[|k]|[|k]].
  - intros [-> | (n & -> & Hn)]; [done |].
    split; [cbn; lia |].
    apply SchedulerFacts.start_range_error. cbn. lia.
  - intros below text ->. done.
Qed.

Lemma batchSize_is_only_compared_witness :
  (let s := "src/assets/*.png" in
   let x := NaN in
   let images := ["a.png"] in
   let w := demo_world in
   s ≠ "" ∧
   let p := {| dirs := DirsStr s; attrs := []; batchSize := x;
               publicDir := false; timeout := 5000;
               assets := []; config := None |} in
   VitePluginPreloadImages [("dirs", Str s); ("batchSize", Num x)] w =
     (if number_lt x 1 then (Threw (config_error [msg_batchSize]), w)
      else (Returned (Some p), w)) ∧
   (x = NaN →
      number_lt x 1 = false ∧
      Scheduler.start (render_script p images) =
        Scheduler.Running (Scheduler.MkState images [] [] [] [] []) ∧
      ∀ events st,
        Scheduler.run (Scheduler.start (render_script p images)) events = Some st →
        events = [] ∧ Scheduler.links st = [] ∧ Scheduler.finished st = []) ∧
   (x = Infinity false ∨ (∃ n : Z, x = Int n ∧ 2 ^ 32 ≤ n) →
      number_lt x 1 = false ∧
      Scheduler.start (render_script p images) = Scheduler.RangeError) ∧
   (∀ below text, x = Frac below text →
      Scheduler.start (render_script p images) =
      Scheduler.start
        (render_script {| dirs := DirsStr s; attrs := []; batchSize := Int below;
                          publicDir := false; timeout := 5000;
                          assets := []; config := None |} images))) ∧
  (let s := "src/assets/*.png" in
   let x := Infinity false in
   let images := ["a.png"] in
   let w := demo_world in
   s ≠ "" ∧
   let p := {| dirs := DirsStr s; attrs := []; batchSize := x;
               publicDir := false; timeout := 5000;
               assets := []; config := None |} in
   VitePluginPreloadImages [("dirs", Str s); ("batchSize", Num x)] w =
     (if number_lt x 1 then (Threw (config_error [msg_batchSize]), w)
      else (Returned (Some p), w)) ∧
   (x = NaN →
      number_lt x 1 = false ∧
      Scheduler.start (render_script p images) =
        Scheduler.Running (Scheduler.MkState images [] [] [] [] []) ∧
      ∀ events st,
        Scheduler.run (Scheduler.start (render_script p images)) events = Some st →
        events = [] ∧ Scheduler.links st = [] ∧ Scheduler.finished st = []) ∧
   (x = Infinity false ∨ (∃ n : Z, x = Int n ∧ 2 ^ 32 ≤ n) →
      number_lt x 1 = false ∧
      Scheduler.start (render_script p images) = Scheduler.RangeError) ∧
   (∀ below text, x = Frac below text →
      Scheduler.start (render_script p images) =
      Scheduler.start
        (render_script {| dirs := DirsStr s; attrs := []; batchSize := Int below;
                          publicDir := false; timeout := 5000;
                          assets := []; config := None |} images))) ∧
  (let s := "src/assets/*.png" in
   let x := Frac 1 "1.5" in
   let images := ["a.png"] in
   let w := demo_world in
   s ≠ "" ∧
   let p := {| dirs := DirsStr s; attrs := []; batchSize := x;
               publicDir := false; timeout := 5000;
               assets := []; config := None |} in
   VitePluginPreloadImages [("dirs", Str s); ("batchSize", Num x)] w =
     (if number_lt x 1 then (Threw (config_error [msg_batchSize]), w)
      else (Returned (Some p), w)) ∧
   (x = NaN →
      number_lt x 1 = false ∧
      Scheduler.start (render_script p images) =
        Scheduler.Running (Scheduler.MkState images [] [] [] [] []) ∧
      ∀ events st,
        Scheduler.run (Scheduler.start (render_script p images)) events = Some st →
        events = [] ∧ Scheduler.links st = [] ∧ Scheduler.finished st = []) ∧
   (x = Infinity false ∨ (∃ n : Z, x = Int n ∧ 2 ^ 32 ≤ n) →
      number_lt x 1 = false ∧
      Scheduler.start (render_script p images) = Scheduler.RangeError) ∧
   (∀ below text, x = Frac below text →
      Scheduler.start (render_script p images) =
      Scheduler.start
        (render_script {| dirs := DirsStr s; attrs := []; batchSize := Int below;
                          publicDir := false; timeout := 5000;
                          assets := []; config := None |} images))).
Proof.
  assert ("src/assets/*.png" ≠ "") as H by done.
  split_and!; cbn zeta.
  - split; [exact H |].
    exact (batchSize_is_only_compared "src/assets/*.png" NaN ["a.png"] demo_world H).
  - split; [exact H |].
    exact (batchSize_is_only_compared "src/assets/*.png" (Infinity false) ["a.png"]
             demo_world H).
  - split; [exact H |].
    exact (batchSize_is_only_compared "src/assets/*.png" (Frac 1 "1.5") ["a.png"]
             demo_world H).
Defined.
